(** * fsmonitor: the scan, diff and dispatch engine

    A shallow embedding of the Go package [fsmonitor]: the event and notice
    model (notice.go), the path scanner built on [filepath.Walk]
    (pathScanner.Watch, and the identical earlier revision Monitor.scan),
    the constructor [New] and the dispatch loop [Monitor.Start] with
    [Monitor.Stop] (monitor.go).

    Channels are modelled by their contents, goroutines by a program
    counter each, and the scheduler by the label of a step. *)

From Stdlib Require Import ZArith List Bool.
From stdpp Require Import gmap strings list fin_maps sets.
Import ListNotations.
#[local] Set Warnings "-clear-no-such-hyp".
Local Open Scope Z_scope.

(** ** Faults: the ways a goroutine can take the whole process down *)

Inductive Fault :=
| NilDereference      (* method call through a nil pointer or interface *)
| ClosedChannel       (* send on, or close of, a closed channel *)
| FatalExit.          (* Logger.Fatalln: os.Exit(1) after logging *)

Inductive Run (A : Type) :=
| Done (a : A)
| Abort (f : Fault).
Arguments Done {A} a.
Arguments Abort {A} f.

Definition bindRun {A B} (r : Run A) (k : A -> Run B) : Run B :=
  match r with
  | Done a => k a
  | Abort f => Abort f
  end.

Notation "'do' x <- r 'in' k" := (bindRun r (fun x => k))
  (at level 10, x pattern, r at level 100, k at level 200).

(** ** notice.go: events and notices *)

(** [type Event uint32], [FileCreate Event = 0x01 << iota] and the three
    constants after it. *)
Definition Event := Z.

Definition iotaEvent (iota : Z) : Event := Z.shiftl 1 iota.

Definition FileCreate : Event := iotaEvent 0.
Definition FileUpdate : Event := iotaEvent 1.
Definition FileRemove : Event := iotaEvent 2.
Definition FileRename : Event := iotaEvent 3.

(** The part of [os.FileInfo] the scanner reads: [IsDir()], [ModTime()]
    (an instant, here in nanoseconds) and [Size()]. *)
Record FileInfo := mkFileInfo {
  IsDir : bool;
  ModTime : Z;
  Size : Z
}.

Definition error := string.

(** [fileSystemNotice]. The [timestamp] field holds [time.Now()]; no
    operation of the package reads it back and it is left out. *)
Record Notice := mkNotice {
  path : string;
  event : Event;
  fileinfo : FileInfo
}.

Definition Name (n : Notice) : string := path n.
Definition Type_ (n : Notice) : Event := event n.
Definition More (n : Notice) : FileInfo := fileinfo n.

(** [After] on instants is the strict order. *)
Definition After (t u : Z) : bool := Z.ltb u t.

#[global] Instance FileInfo_eq_dec : EqDecision FileInfo.
Proof. solve_decision. Defined.

#[global] Instance Notice_eq_dec : EqDecision Notice.
Proof. solve_decision. Defined.

(** ** Compiled patterns

    [regexp.Regexp] is a struct whose compiled program is a pointer. The
    zero value has no compiled program, and [FindStringIndex] on it panics
    inside the library; which check of the library fails first is the
    library's matter, and the panic is recorded as [NilDereference]. A
    compiled program is represented by what the scanner asks of it: whether
    [FindStringIndex(file)] is non-nil. *)
Definition Prog := string -> bool.

Record Regexp := mkRegexp { prog : option Prog }.

Definition zeroRegexp : Regexp := mkRegexp None.

(** [re.FindStringIndex(file) != nil] *)
Definition FindStringIndex (re : Regexp) (file : string) : Run bool :=
  match prog re with
  | None => Abort NilDereference
  | Some p => Done (p file)
  end.

(** ** The path scanner *)

Record pathScanner := mkPathScanner {
  address : string;
  pattern : list Regexp;
  lastCheck : option (gmap string FileInfo)   (* None is the nil map *)
}.

(** One call of the walk function by [filepath.Walk]: the path, the info
    ([None] when Lstat failed and Walk passes nil) and the error Walk found
    for that path. *)
Record Visit := mkVisit {
  file : string;
  info : option FileInfo;
  verr : option error
}.

(** The locals of one cycle: [visited], [created], and the notices sent on
    [changed] so far, oldest first. *)
Record Cycle := mkCycle {
  visited : gmap string FileInfo;
  created : Z;
  changed : list Notice
}.

Definition newCycle : Cycle := mkCycle ∅ 0 [].

(** The [for _, re := range s.pattern] loop with its [break]. *)
Fixpoint matchLoop (pats : list Regexp) (f : string) : Run bool :=
  match pats with
  | [] => Done false
  | re :: rest =>
      do hit <- FindStringIndex re f in
      if hit then Done true else matchLoop rest f
  end.

(** [matched := false || len(s.pattern) == 0], then the loop. *)
Definition matched (pats : list Regexp) (f : string) : Run bool :=
  do hit <- matchLoop pats f in
  Done (Nat.eqb (length pats) 0 || hit).

(** The second half of the walk function, from the lookup in [lastCheck]
    to [visited[file] = info]. *)
Definition diffItem (last : option (gmap string FileInfo))
    (c : Cycle) (f : string) (i : FileInfo) : Cycle :=
  match last ≫= (.!! f) with
  | Some oldinfo =>
      if After (ModTime i) (ModTime oldinfo) then
        mkCycle (<[f:=i]> (visited c)) (created c)
                (changed c ++ [mkNotice f FileUpdate i])
      else if negb (Z.eqb (Size oldinfo) (Size i)) then
        mkCycle (<[f:=i]> (visited c)) (created c)
                (changed c ++ [mkNotice f FileUpdate i])
      else
        mkCycle (<[f:=i]> (visited c)) (created c) (changed c)
  | None =>
      match last with
      | Some _ =>
          mkCycle (<[f:=i]> (visited c)) (created c + 1)
                  (changed c ++ [mkNotice f FileCreate i])
      | None =>
          mkCycle (<[f:=i]> (visited c)) (created c) (changed c)
      end
  end.

(** The function literal passed to [filepath.Walk]; it returns the error
    it was given on every path. *)
Definition walkFn (s : pathScanner) (c : Cycle) (v : Visit)
    : Run (Cycle * option error) :=
  match info v with
  | None => Abort NilDereference
  | Some i =>
      if IsDir i then Done (c, verr v)
      else
        do m <- matched (pattern s) (file v) in
        if negb m then Done (c, verr v)
        else Done (diffItem (lastCheck s) c (file v) i, verr v)
  end.

(** [filepath.Walk] as the walk function sees it: the calls it makes, in
    order, stopping at the first call that returns a non-nil error. (The
    walk function never returns [SkipDir]: it only returns what Walk handed
    to it.) *)
Fixpoint Walk (fn : Cycle -> Visit -> Run (Cycle * option error))
    (vs : list Visit) (c : Cycle) : Run (Cycle * option error) :=
  match vs with
  | [] => Done (c, None)
  | v :: rest =>
      do (c', e) <- fn c v in
      match e with
      | Some _ => Done (c', e)
      | None => Walk fn rest c'
      end
  end.

(** The order in which [range] iterates a map is left to the runtime. *)
Definition RangeOrder := gmap string FileInfo -> list (string * FileInfo).

(** The body of the [for file, info := range s.lastCheck] loop. *)
Definition removePass (range : RangeOrder) (last seen : gmap string FileInfo)
    : list Notice :=
  flat_map (fun '(f, i) =>
              match seen !! f with
              | Some _ => []
              | None => [mkNotice f FileRemove i]
              end) (range last).

(** One iteration of [for changed := range ncc]: the walk, the removal
    pass behind its length guard, and [s.lastCheck = visited]. The result
    is the scanner afterwards, everything sent on [changed], and the value
    sent on [errors]. *)
Definition scanCycle (range : RangeOrder) (s : pathScanner) (vs : list Visit)
    : Run (pathScanner * list Notice * option error) :=
  do (c, err) <- Walk (walkFn s) vs newCycle in
  let removed :=
    match lastCheck s with
    | Some last =>
        if Z.ltb (Z.of_nat (size (visited c)) - created c) (Z.of_nat (size last))
        then removePass range last (visited c)
        else []
    | None => []
    end in
  Done (mkPathScanner (address s) (pattern s) (Some (visited c)),
        changed c ++ removed, err).

(** ** monitor.go: the constructor *)

Section Constructor.

(** [regexp.Compile] *)
Variable Compile : string -> Prog + error.

(** [for _, pat := range pattern] with [patexp = append(patexp, *exp)];
    a pattern that does not compile ends in [Logger.Fatalln]. *)
Fixpoint compileLoop (patexp : list Regexp) (pats : list string)
    : Run (list Regexp) :=
  match pats with
  | [] => Done patexp
  | pat :: rest =>
      match Compile pat with
      | inr _ => Abort FatalExit
      | inl exp => compileLoop (patexp ++ [mkRegexp (Some exp)]) rest
      end
  end.

(** monitor.go: [patexp = make([]regexp.Regexp, len(pattern), len(pattern))],
    a slice that already holds [len(pattern)] zero values. *)
Definition New_patexp (pats : list string) : Run (list Regexp) :=
  compileLoop (replicate (length pats) zeroRegexp) pats.

(** The earlier revision, Monitor.Watch: [patexp = make([]regexp.Regexp, 0)]. *)
Definition Watch_patexp (pats : list string) : Run (list Regexp) :=
  compileLoop [] pats.

(** [fileScanner] has the fields of [pathScanner]; its [Watch] returns nil
    channels. *)
Inductive Watcher :=
| usePathScanner (s : pathScanner)
| useFileScanner (s : pathScanner)
| useCustom.

(** The [watcher interface{}] argument: a name, a Watcher implementation,
    or a value of any other type. *)
Inductive WatcherArg :=
| byName (name : string)
| byImplementation
| byOther.

(** [New]: the value of the [watcher] field of the Monitor it returns. *)
Definition New (addr : string) (pats : list string) (watcher : WatcherArg)
    : Run Watcher :=
  do patexp <- New_patexp pats in
  match watcher with
  | byName name =>
      if String.eqb name "path" then
        Done (usePathScanner (mkPathScanner addr patexp None))
      else if String.eqb name "file" then
        Done (useFileScanner (mkPathScanner addr patexp None))
      else Abort FatalExit
  | byImplementation => Done useCustom
  | byOther => Abort FatalExit
  end.

End Constructor.

(** ** monitor.go: the dispatch loop and the worker *)

Definition notice_buffer_length : nat := 1000.

(** The [for _, e := range event] loop of the [case n := <-noticeBuffer]
    branch: what it sends on [m.notices]. *)
Fixpoint forward (events : list Event) (n : Notice) : list Notice :=
  match events with
  | [] => []
  | e :: rest =>
      if Z.eqb e (Type_ n) then n :: forward rest n else forward rest n
  end.

(** [timeTick] is nil, [time.Tick(sleep)], or the one-shot
    [time.After] of the error branch. *)
Inductive Timer := Ticker | Cooldown.

Inductive MonitorPc :=
| AtSelect          (* at the [select] of the loop *)
| SendingNcc        (* in [ncc <- noticeBuffer], after [timeTick = nil] *)
| Returned.         (* after [returning <- nil; return] *)

Inductive WorkerPc :=
| AwaitRequest                          (* in [range ncc] *)
| Scanning (pending : list Notice) (next : pathScanner) (err : option error)
| Reporting (err : option error)        (* in [errors <- err] *)
| Exited.                               (* [errors] closed by the defer *)

Record Pipeline := mkPipeline {
  timeTick : option Timer;
  returning : bool;                 (* [returning] is no longer nil *)
  nccClosed : bool;
  monitor : MonitorPc;
  worker : WorkerPc;
  scanner : pathScanner;
  noticeBuffer : list Notice;
  bufferClosed : bool;
  notices : list Notice;            (* everything sent on [m.notices] *)
  noticesClosed : bool;
  released : option (option error); (* the value sent on [returning] *)
  stopped : option (option error);  (* the value [Stop] returned *)
  begun : nat;                      (* buffers taken by the worker *)
  reported : nat                    (* statuses received by the loop *)
}.

(** The state when [Start] reaches its loop for the first time. *)
Definition boot (s : pathScanner) : Pipeline :=
  mkPipeline (Some Ticker) false false AtSelect AwaitRequest s
             [] false [] false None None 0%nat 0%nat.

(** [Stop] from the receive on [stopper] on: a non-nil value ends in
    [Logger.Fatalln]. *)
Definition Stop_after (e : option error) : Run (option error) :=
  match e with
  | Some _ => Abort FatalExit
  | None => Done None
  end.

Inductive Action :=
| TimerFires                  (* [case <-timeTick] *)
| Handoff (vs : list Visit)   (* the send on [ncc] meets [range ncc];
                                 [vs] is what this cycle's Walk finds *)
| Emit                        (* [changed <- notice] *)
| Finish                      (* [s.lastCheck = visited] *)
| Report                      (* [case err, ok := <-errorCheck], ok *)
| Drain                       (* [case n := <-noticeBuffer] *)
| StopCalled                  (* [case returning = <-m.closing] *)
| WorkerExits                 (* [range ncc] ends, [errors] is closed *)
| Shutdown                    (* [case <-errorCheck], not ok *)
| StopReturns.                (* [Stop] receives from [stopper] *)

Inductive Outcome :=
| Next (p : Pipeline)
| Blocked
| Crash (f : Fault).

Section Dispatch.

Variable range : RangeOrder.
Variable events : list Event.      (* the variadic argument of [Start] *)

(** One step of the loop of [Start], of the goroutine of
    [pathScanner.Watch], or of a caller of [Stop]. A step is [Blocked] when
    its goroutine is not at that point or its channel operation cannot
    proceed. The worker's cycle is computed when it takes the buffer, and
    its notices are then sent one at a time; a cycle that faults takes the
    process down, which is placed at the hand-off. The branch that takes a
    notice from the buffer sends it on [m.notices] in the same step: a
    reader of [m.notices] is taken to be ready whenever the loop sends.
    [begun] and [reported] only count. *)
Definition step (a : Action) (p : Pipeline) : Outcome :=
  match a with
  | TimerFires =>
      match monitor p, timeTick p with
      | AtSelect, Some _ =>
          if nccClosed p then Crash ClosedChannel
          else Next (mkPipeline None (returning p) (nccClosed p) SendingNcc
                       (worker p) (scanner p) (noticeBuffer p) (bufferClosed p)
                       (notices p) (noticesClosed p) (released p) (stopped p)
                       (begun p) (reported p))
      | _, _ => Blocked
      end
  | Handoff vs =>
      match monitor p, worker p with
      | SendingNcc, AwaitRequest =>
          match scanCycle range (scanner p) vs with
          | Abort f => Crash f
          | Done (next, out, err) =>
              Next (mkPipeline (timeTick p) (returning p) (nccClosed p) AtSelect
                      (Scanning out next err) (scanner p) (noticeBuffer p)
                      (bufferClosed p) (notices p) (noticesClosed p)
                      (released p) (stopped p) (S (begun p)) (reported p))
          end
      | _, _ => Blocked
      end
  | Emit =>
      match worker p with
      | Scanning (n :: rest) next err =>
          if Nat.ltb (length (noticeBuffer p)) notice_buffer_length then
            Next (mkPipeline (timeTick p) (returning p) (nccClosed p) (monitor p)
                    (Scanning rest next err) (scanner p) (noticeBuffer p ++ [n])
                    (bufferClosed p) (notices p) (noticesClosed p)
                    (released p) (stopped p) (begun p) (reported p))
          else Blocked
      | _ => Blocked
      end
  | Finish =>
      match worker p with
      | Scanning [] next err =>
          Next (mkPipeline (timeTick p) (returning p) (nccClosed p) (monitor p)
                  (Reporting err) next (noticeBuffer p)
                  (bufferClosed p) (notices p) (noticesClosed p)
                  (released p) (stopped p) (begun p) (reported p))
      | _ => Blocked
      end
  | Report =>
      match monitor p, worker p with
      | AtSelect, Reporting err =>
          Next (mkPipeline
                  (Some (match err with Some _ => Cooldown | None => Ticker end))
                  (returning p) (nccClosed p) AtSelect
                  AwaitRequest (scanner p) (noticeBuffer p)
                  (bufferClosed p) (notices p) (noticesClosed p)
                  (released p) (stopped p) (begun p) (S (reported p)))
      | _, _ => Blocked
      end
  | Drain =>
      match monitor p, noticeBuffer p with
      | AtSelect, n :: rest =>
          Next (mkPipeline (timeTick p) (returning p) (nccClosed p) AtSelect
                  (worker p) (scanner p) rest
                  (bufferClosed p) (notices p ++ forward events n)
                  (noticesClosed p) (released p) (stopped p)
                  (begun p) (reported p))
      | _, _ => Blocked
      end
  | StopCalled =>
      match monitor p with
      | AtSelect =>
          if nccClosed p then Crash ClosedChannel
          else Next (mkPipeline (timeTick p) true true AtSelect
                       (worker p) (scanner p) (noticeBuffer p)
                       (bufferClosed p) (notices p) (noticesClosed p)
                       (released p) (stopped p) (begun p) (reported p))
      | _ => Blocked
      end
  | WorkerExits =>
      match worker p with
      | AwaitRequest =>
          if nccClosed p then
            Next (mkPipeline (timeTick p) (returning p) (nccClosed p) (monitor p)
                    Exited (scanner p) (noticeBuffer p)
                    (bufferClosed p) (notices p) (noticesClosed p)
                    (released p) (stopped p) (begun p) (reported p))
          else Blocked
      | _ => Blocked
      end
  | Shutdown =>
      match monitor p, worker p with
      | AtSelect, Exited =>
          if returning p then
            Next (mkPipeline (timeTick p) (returning p) (nccClosed p) Returned
                    Exited (scanner p) (drop 1 (noticeBuffer p))
                    true (notices p) (noticesClosed p)
                    (Some None) (stopped p) (begun p) (reported p))
          else Blocked
      | _, _ => Blocked
      end
  | StopReturns =>
      match released p, stopped p with
      | Some e, None =>
          match Stop_after e with
          | Abort f => Crash f
          | Done err =>
              Next (mkPipeline (timeTick p) (returning p) (nccClosed p) (monitor p)
                      (worker p) (scanner p) (noticeBuffer p)
                      (bufferClosed p) (notices p) true
                      (released p) (Some err) (begun p) (reported p))
          end
      | _, _ => Blocked
      end
  end.

(** A schedule, run from left to right. *)
Fixpoint run (tr : list Action) (p : Pipeline) : Outcome :=
  match tr with
  | [] => Next p
  | a :: rest =>
      match step a p with
      | Next p' => run rest p'
      | o => o
      end
  end.

(** The worker holds a buffer it has not yet reported on. *)
Definition busy (p : Pipeline) : bool :=
  match worker p with
  | Scanning _ _ _ | Reporting _ => true
  | _ => false
  end.

End Dispatch.

(** The loop and the worker agree on the one cycle that may be open: the
    worker holds a buffer exactly when one more cycle has begun than has
    been reported, and the timer is nil for as long. *)
Definition serialized (p : Pipeline) : Prop :=
  begun p = (reported p + (if busy p then 1 else 0))%nat
  /\ (busy p = true -> timeTick p = None /\ monitor p <> SendingNcc)
  /\ (monitor p = SendingNcc -> timeTick p = None).

(** The scan requests under way: the one the loop is sending on [ncc], and
    the one the worker has taken and not yet reported on. *)
Definition outstanding (p : Pipeline) : nat :=
  (match monitor p with SendingNcc => 1 | _ => 0 end
   + if busy p then 1 else 0)%nat.

(** What has been released to, and returned by, [Stop] so far. *)
Definition quietStop (p : Pipeline) : Prop :=
  (released p = None
   \/ (released p = Some None /\ monitor p = Returned /\ worker p = Exited))
  /\ (stopped p = None
      \/ (stopped p = Some None /\ released p = Some None
          /\ noticesClosed p = true)).

(** The notices the worker still has to send in the cycle under way. *)
Definition pendingOf (p : Pipeline) : list Notice :=
  match worker p with
  | Scanning pending _ _ => pending
  | _ => []
  end.

(** The kinds the path scanner sends. *)
Definition scannerKind (n : Notice) : Prop :=
  event n = FileCreate \/ event n = FileUpdate \/ event n = FileRemove.

Definition scannerKinds (p : Pipeline) : Prop :=
  Forall scannerKind (noticeBuffer p)
  /\ Forall scannerKind (notices p)
  /\ Forall scannerKind (pendingOf p).

(** [returning] is set by the branch that closes [ncc], and nothing of the
    shutdown happens before. *)
Definition closeTracked (p : Pipeline) : Prop :=
  returning p = nccClosed p
  /\ (nccClosed p = false ->
      released p = None /\ stopped p = None /\ worker p <> Exited)
  /\ (nccClosed p = true -> monitor p <> SendingNcc).

(** The loop is at its select with [Stop] requested and not yet served. *)
Definition stopping (p : Pipeline) : Prop :=
  monitor p = AtSelect /\ nccClosed p = true /\ returning p = true
  /\ stopped p = None.

(** Nothing has been sent while the first cycle is the only one begun. *)
Definition firstCycleQuiet (p : Pipeline) : Prop :=
  (begun p = 0%nat -> lastCheck (scanner p) = None /\ busy p = false)
  /\ ((begun p <= 1)%nat ->
      notices p = [] /\ noticeBuffer p = [] /\ pendingOf p = []).

(** ** What one cycle amounts to

    The definitions below describe the result of a cycle that ran to its
    end; the lemmas after them connect them to [scanCycle]. *)

Definition compiledFind (f : string) (re : Regexp) : bool :=
  match prog re with
  | Some p => p f
  | None => false
  end.

Definition matchesAny (pats : list Regexp) (f : string) : bool :=
  Nat.eqb (length pats) 0 || existsb (compiledFind f) pats.

(** What a single visit contributes: nothing for a directory or a path no
    pattern matches. *)
Definition itemOf (pats : list Regexp) (v : Visit) : list (string * FileInfo) :=
  match info v with
  | Some i =>
      if IsDir i then []
      else if matchesAny pats (file v) then [(file v, i)] else []
  | None => []
  end.

(** The items of a walk, in traversal order, up to and including the visit
    that carries the first error. *)
Fixpoint items (pats : list Regexp) (vs : list Visit) : list (string * FileInfo) :=
  match vs with
  | [] => []
  | v :: rest =>
      match verr v with
      | Some _ => itemOf pats v
      | None => itemOf pats v ++ items pats rest
      end
  end.

(** The error Walk returns. *)
Fixpoint walkErr (vs : list Visit) : option error :=
  match vs with
  | [] => None
  | v :: rest =>
      match verr v with
      | Some e => Some e
      | None => walkErr rest
      end
  end.

(** The map built by the assignments [visited[file] = info]. *)
Definition snapshot (l : list (string * FileInfo)) : gmap string FileInfo :=
  foldl (fun m p => <[p.1:=p.2]> m) ∅ l.

(** The notice the forward pass sends for one item. *)
Definition diffNotice (last : option (gmap string FileInfo))
    (p : string * FileInfo) : list Notice :=
  match last with
  | None => []
  | Some prev =>
      match prev !! p.1 with
      | Some oldinfo =>
          if After (ModTime p.2) (ModTime oldinfo)
             || negb (Z.eqb (Size oldinfo) (Size p.2))
          then [mkNotice p.1 FileUpdate p.2]
          else []
      | None => [mkNotice p.1 FileCreate p.2]
      end
  end.

Definition isNew (last : option (gmap string FileInfo)) (f : string) : bool :=
  match last with
  | Some prev => bool_decide (prev !! f = None)
  | None => false
  end.

Definition record (last : option (gmap string FileInfo))
    (c : Cycle) (p : string * FileInfo) : Cycle :=
  diffItem last c p.1 p.2.

(** The paths of the non-directory visits of a walk. *)
Definition walkedFile (v : Visit) : list string :=
  match info v with
  | Some i => if IsDir i then [] else [file v]
  | None => []
  end.

Definition walkedFiles (vs : list Visit) : list string :=
  flat_map walkedFile vs.


(** No fault can occur: every pattern has a program and every visit an
    info. *)
Definition compiled (pats : list Regexp) : bool :=
  forallb (fun re => bool_decide (is_Some (prog re))) pats.

Definition statted (vs : list Visit) : bool :=
  forallb (fun v => bool_decide (is_Some (info v))) vs.

(** Every entry [range] yields is an entry of the map, each one once. *)
Definition fairRange (range : RangeOrder) : Prop :=
  forall m, range m ≡ₚ map_to_list m.

(** ** notice.go: printing *)

(** [var eventName = map[Event]string{...}] *)
Definition eventName : gmap Z string :=
  <[FileCreate := "notice.FileCreate"%string]>
    (<[FileRemove := "notice.FileRemove"%string]>
       (<[FileUpdate := "notice.FileUpdate"%string]>
          {[FileRename := "notice.FileRename"%string]})).

(** The order in which [range] iterates a name map. *)
Definition NameOrder := gmap Z string -> list (Z * string).

Definition fairNames (range : NameOrder) : Prop :=
  forall m, range m ≡ₚ map_to_list m.

(** The slice [s] that [Event.String] builds: the outer loop runs over the
    one-element slice of maps, the inner one over the map, and a name is
    appended when [e&ev == ev]. *)
Definition Event_names (range : NameOrder) (e : Event) : list string :=
  flat_map (fun strmap =>
              flat_map (fun '(ev, str) =>
                          if Z.eqb (Z.land e ev) ev then [str] else [])
                       (range strmap))
           [eventName].

(** [Event.String]: [strings.Join(s, "|")] *)
Definition Event_String (range : NameOrder) (e : Event) : string :=
  String.concat "|" (Event_names range e).

(** [fileSystemNotice.String]: [fmt.Sprintf("{%v : %v}", f.path, f.event)],
    where [%v] prints an [Event] through its [String] method. *)
Definition Notice_String (range : NameOrder) (n : Notice) : string :=
  String.append "{"
    (String.append (path n)
       (String.append " : " (String.append (Event_String range (event n)) "}"))).

(** ** Sample trees and scanners *)

Definition regular (mtime size : Z) : FileInfo := mkFileInfo false mtime size.
Definition directory : FileInfo := mkFileInfo true 0 0.

Definition seen (f : string) (i : FileInfo) : Visit := mkVisit f (Some i) None.

(** Walk reports that a directory could not be read. *)
Definition unreadable (f : string) : Visit :=
  mkVisit f (Some directory) (Some "permission denied"%string).

(** A scanner that has not run yet. *)
Definition freshScanner : pathScanner := mkPathScanner "root" [] None.

(** previous = {a: mtime=1, size=10}, and a walk that finds a with mtime=2. *)
Definition touchedScanner : pathScanner :=
  mkPathScanner "root" [] (Some {["root/a" := regular 1 10]}).

Definition touchedWalk : list Visit :=
  [seen "root" directory; seen "root/a" (regular 2 10)].

(** previous = {a, b}, and walks that find a alone, or both unchanged. *)
Definition pairScanner : pathScanner :=
  mkPathScanner "root" []
    (Some (<["root/a" := regular 1 10]> {["root/b" := regular 1 20]})).

Definition loneWalk : list Visit :=
  [seen "root" directory; seen "root/a" (regular 1 10)].

Definition pairWalk : list Visit :=
  [seen "root" directory; seen "root/a" (regular 1 10);
   seen "root/b" (regular 1 20)].

(** previous = {a, sub/b}, and a walk that fails on reading sub. *)
Definition nestedScanner : pathScanner :=
  mkPathScanner "root" []
    (Some (<["root/a" := regular 1 10]> {["root/sub/b" := regular 1 20]})).

Definition deniedWalk : list Visit :=
  [seen "root" directory; seen "root/a" (regular 1 10);
   seen "root/sub" directory; unreadable "root/sub"].

(** A stand-in for [regexp.Compile] that knows one pattern, [\.log$]. *)
Definition endsInLog : Prog :=
  fun f => String.eqb (String.substring (String.length f - 4)%nat 4 f) ".log".

Definition logPattern : string := "\.log$".

Definition compileLog (pat : string) : Prog + error :=
  if String.eqb pat logPattern then inl endsInLog
  else inr "unsupported pattern"%string.

Definition logWalk : list Visit :=
  [seen "root" directory; seen "root/a.txt" (regular 1 10);
   seen "root/b.log" (regular 1 20)].

(** A scanner whose last cycle found no file, and a walk that finds one. *)
Definition emptyScanner : pathScanner := mkPathScanner "root" [] (Some ∅).

Definition newcomerWalk : list Visit :=
  [seen "root" directory; seen "root/a" (regular 1 10)].

(** A notice whose kind carries two bits, as a Watcher of the caller's own
    may send. *)
Definition mixedNotice : Notice :=
  mkNotice "root/a" (Z.lor FileCreate FileUpdate) (regular 1 10).

(** The loop at its select, the Watcher having sent one notice into the
    buffer. *)
Definition holding (n : Notice) : Pipeline :=
  mkPipeline None false false AtSelect (Scanning [] freshScanner None)
             freshScanner [n] false [] false None None 1%nat 0%nat.

(** ** Lemmas on matching and on the walk *)

Lemma matchLoop_Done pats f b :
  matchLoop pats f = Done b -> b = existsb (compiledFind f) pats.
Proof.
  induction pats as [|re pats IH]; simpl.
  - congruence.
  - unfold FindStringIndex, compiledFind. destruct (prog re) as [p|]; simpl.
    + destruct (p f); simpl; [congruence | exact IH].
    + discriminate.
Qed.

Lemma matched_Done pats f b :
  matched pats f = Done b -> b = matchesAny pats f.
Proof.
  unfold matched, matchesAny. destruct (matchLoop pats f) as [h|] eqn:E; simpl.
  - apply matchLoop_Done in E. congruence.
  - discriminate.
Qed.

Lemma matchLoop_total pats f :
  compiled pats = true -> matchLoop pats f = Done (existsb (compiledFind f) pats).
Proof.
  induction pats as [|re pats IH]; simpl; [done|].
  intros [Hre Hrest]%andb_prop. apply bool_decide_eq_true in Hre.
  destruct Hre as [p Hp]. unfold FindStringIndex, compiledFind. rewrite Hp. simpl.
  destruct (p f); simpl; [done | auto].
Qed.

Lemma matched_total pats f :
  compiled pats = true -> matched pats f = Done (matchesAny pats f).
Proof.
  intros H. unfold matched. rewrite (matchLoop_total _ _ H). reflexivity.
Qed.

Lemma walkFn_Done s c v c' e :
  walkFn s c v = Done (c', e) ->
  c' = foldl (record (lastCheck s)) c (itemOf (pattern s) v) /\ e = verr v.
Proof.
  unfold walkFn, itemOf. destruct (info v) as [i|]; [|discriminate].
  destruct (IsDir i).
  - intros [= <- <-]. done.
  - destruct (matched (pattern s) (file v)) as [m|] eqn:E; simpl; [|discriminate].
    apply matched_Done in E. subst m.
    destruct (matchesAny (pattern s) (file v)); simpl; intros [= <- <-]; done.
Qed.

Lemma Walk_Done s vs : forall c c' e,
  Walk (walkFn s) vs c = Done (c', e) ->
  c' = foldl (record (lastCheck s)) c (items (pattern s) vs) /\ e = walkErr vs.
Proof.
  induction vs as [|v vs IH]; simpl; intros c c' e.
  - intros [= <- <-]. done.
  - destruct (walkFn s c v) as [[c1 e1]|] eqn:E; simpl; [|discriminate].
    apply walkFn_Done in E. destruct E as [-> ->].
    destruct (verr v) as [e1|].
    + intros [= <- <-]. done.
    + intros H. apply IH in H. destruct H as [-> ->].
      rewrite foldl_app. done.
Qed.

Lemma walkFn_total s c v :
  compiled (pattern s) = true -> is_Some (info v) ->
  walkFn s c v = Done (foldl (record (lastCheck s)) c (itemOf (pattern s) v), verr v).
Proof.
  intros Hc [i Hi]. unfold walkFn, itemOf. rewrite Hi.
  destruct (IsDir i); [done|].
  rewrite (matched_total _ _ Hc). simpl.
  destruct (matchesAny (pattern s) (file v)); done.
Qed.

Lemma Walk_total s vs : forall c,
  compiled (pattern s) = true -> statted vs = true ->
  Walk (walkFn s) vs c
  = Done (foldl (record (lastCheck s)) c (items (pattern s) vs), walkErr vs).
Proof.
  induction vs as [|v vs IH]; simpl; intros c Hc Hs; [done|].
  apply andb_prop in Hs. destruct Hs as [Hv Hs]. apply bool_decide_eq_true in Hv.
  rewrite (walkFn_total _ _ _ Hc Hv). simpl.
  destruct (verr v); [done|]. rewrite IH by done. by rewrite foldl_app.
Qed.

(** ** Lemmas on the forward pass *)

Lemma record_eq last c p :
  record last c p
  = mkCycle (<[p.1:=p.2]> (visited c))
            (created c + (if isNew last p.1 then 1 else 0))
            (changed c ++ diffNotice last p).
Proof.
  destruct c as [vis cr ch], p as [f i]. unfold record, diffItem, diffNotice, isNew.
  simpl. destruct last as [prev|]; simpl.
  - destruct (prev !! f) as [old|] eqn:E.
    + rewrite bool_decide_eq_false_2 by congruence.
      destruct (After (ModTime i) (ModTime old)); simpl.
      * by rewrite Z.add_0_r.
      * destruct (negb (Size old =? Size i)); simpl;
          by rewrite Z.add_0_r, ?app_nil_r.
    + by rewrite bool_decide_eq_true_2.
  - by rewrite Z.add_0_r, app_nil_r.
Qed.

Lemma foldl_record_visited last l : forall c,
  visited (foldl (record last) c l)
  = foldl (fun m p => <[p.1:=p.2]> m) (visited c) l.
Proof.
  induction l as [|p l IH]; simpl; intros c; [done|].
  rewrite IH, record_eq. done.
Qed.

Lemma foldl_record_changed last l : forall c,
  changed (foldl (record last) c l) = changed c ++ flat_map (diffNotice last) l.
Proof.
  induction l as [|p l IH]; simpl; intros c.
  - by rewrite app_nil_r.
  - rewrite IH, record_eq. simpl. by rewrite <- app_assoc.
Qed.

Lemma foldl_record_created_ge last l : forall c,
  created c <= created (foldl (record last) c l).
Proof.
  induction l as [|p l IH]; simpl; intros c; [lia|].
  etrans; [|apply IH]. rewrite record_eq. simpl.
  destruct (isNew last p.1); lia.
Qed.

(** Every identity [visited] holds and the previous map lacks has been
    counted in [created] at least once. *)
Lemma foldl_record_created prev l : forall c,
  Z.of_nat (size (dom (visited (foldl (record (Some prev)) c l)) ∖ dom prev))
  - Z.of_nat (size (dom (visited c) ∖ dom prev))
  <= created (foldl (record (Some prev)) c l) - created c.
Proof.
  induction l as [|[f i] l IH]; simpl; intros c; [lia|].
  specialize (IH (record (Some prev) c (f, i))).
  rewrite record_eq in IH at 2 4. simpl in IH.
  rewrite dom_insert_L in IH.
  destruct (decide (f ∈ dom prev)) as [Hin|Hout].
  - replace (({[f]} ∪ dom (visited c)) ∖ dom prev)
      with (dom (visited c) ∖ dom prev) in IH by set_solver.
    destruct (bool_decide (prev !! f = None)); lia.
  - assert (Hle : (size (({[f]} ∪ dom (visited c)) ∖ dom prev)
                   <= S (size (dom (visited c) ∖ dom prev)))%nat).
    { etrans; [apply (subseteq_size _ ({[f]} ∪ (dom (visited c) ∖ dom prev)));
               set_solver|].
      rewrite size_union_alt, size_singleton.
      apply le_n_S, subseteq_size. set_solver. }
    rewrite bool_decide_eq_true_2 in IH by (by apply not_elem_of_dom).
    lia.
Qed.

(** When the length guard of the removal pass is false, nothing has been
    removed. *)
Lemma guard_false_all_seen prev l c :
  c = foldl (record (Some prev)) newCycle l ->
  Z.of_nat (size prev) <= Z.of_nat (size (visited c)) - created c ->
  dom prev ⊆ dom (visited c).
Proof.
  intros -> Hguard.
  pose proof (foldl_record_created prev l newCycle) as Hcr. simpl in Hcr.
  rewrite dom_empty_L in Hcr.
  replace ((∅ : gset string) ∖ dom prev) with (∅ : gset string) in Hcr by set_solver.
  rewrite size_empty in Hcr.
  set (c := foldl (record (Some prev)) newCycle l) in *.
  rewrite <- !size_dom in Hguard.
  assert (Hsplit : size (dom (visited c))
                   = (size (dom (visited c) ∩ dom prev)
                      + size (dom (visited c) ∖ dom prev))%nat).
  { rewrite <- size_union by set_solver. f_equal.
    apply set_eq. intros x. rewrite elem_of_union, elem_of_intersection,
      elem_of_difference. destruct (decide (x ∈ dom prev)); naive_solver. }
  assert (Heq : dom (visited c) ∩ dom prev = dom prev).
  { apply set_subseteq_size_eq; [set_solver | lia]. }
  set_solver.
Qed.

Lemma removePass_all_seen range last seen :
  fairRange range -> dom last ⊆ dom seen -> removePass range last seen = [].
Proof.
  intros Hfair Hsub. unfold removePass.
  assert (H : forall p, p ∈ range last -> is_Some (seen !! p.1)).
  { intros [f i] Hin. rewrite (Hfair last) in Hin.
    apply elem_of_map_to_list in Hin. apply elem_of_dom, Hsub, elem_of_dom. eauto. }
  induction (range last) as [|[f i] l IH]; simpl; [done|].
  destruct (H (f, i)) as [x Hx]; [left|]. simpl in Hx. rewrite Hx. simpl.
  apply IH. intros p Hp. apply H. by right.
Qed.

(** The shape of every cycle that runs to its end. *)
Lemma scanCycle_Done range s vs s' ns err :
  scanCycle range s vs = Done (s', ns, err) ->
  let its := items (pattern s) vs in
  s' = mkPathScanner (address s) (pattern s) (Some (snapshot its))
  /\ err = walkErr vs
  /\ exists rem,
       ns = flat_map (diffNotice (lastCheck s)) its ++ rem
       /\ (rem = match lastCheck s with
                 | Some last => removePass range last (snapshot its)
                 | None => []
                 end
           \/ exists last, lastCheck s = Some last /\ rem = []
                           /\ dom last ⊆ dom (snapshot its)).
Proof.
  intros H its. unfold scanCycle in H.
  destruct (Walk (walkFn s) vs newCycle) as [[c e]|] eqn:E; simpl in H; [|discriminate].
  apply Walk_Done in E. destruct E as [Hc ->]. fold its in Hc.
  assert (Hvis : visited c = snapshot its).
  { rewrite Hc, foldl_record_visited. done. }
  assert (Hch : changed c = flat_map (diffNotice (lastCheck s)) its).
  { rewrite Hc, foldl_record_changed. done. }
  injection H as <- <- <-. rewrite Hvis, Hch. split; [done|]. split; [done|].
  eexists. split; [done|].
  destruct (lastCheck s) as [last|] eqn:El; [|by left].
  destruct (Z.ltb_spec (Z.of_nat (size (snapshot its)) - created c)
                       (Z.of_nat (size last))) as [Hlt|Hge]; [by left|].
  right. exists last. split; [done|]. split; [done|].
  rewrite <- Hvis. apply (guard_false_all_seen last its c); [done|].
  rewrite Hvis. lia.
Qed.

Lemma scanCycle_Done_fair range s vs s' ns err :
  fairRange range ->
  scanCycle range s vs = Done (s', ns, err) ->
  let its := items (pattern s) vs in
  ns = flat_map (diffNotice (lastCheck s)) its
       ++ match lastCheck s with
          | Some last => removePass range last (snapshot its)
          | None => []
          end.
Proof.
  intros Hfair H its. apply scanCycle_Done in H.
  destruct H as (_ & _ & rem & -> & [->|(last & -> & -> & Hsub)]); [done|].
  by rewrite removePass_all_seen.
Qed.

Lemma scanCycle_total range s vs :
  compiled (pattern s) = true -> statted vs = true ->
  exists s' ns, scanCycle range s vs = Done (s', ns, walkErr vs).
Proof.
  intros Hc Hs. unfold scanCycle. rewrite Walk_total by done. simpl. eauto.
Qed.

(** ** Lemmas on the snapshot and on the notices of a cycle *)

Lemma foldl_insert_list_to_map (l : list (string * FileInfo)) :
  forall m : gmap string FileInfo,
  foldl (fun m p => <[p.1:=p.2]> m) m l = list_to_map (reverse l) ∪ m.
Proof.
  induction l as [|[f i] l IH]; simpl; intros m.
  - by rewrite (left_id_L ∅ (∪)).
  - rewrite IH, reverse_cons, list_to_map_app. simpl.
    rewrite <- (assoc_L (∪)). f_equal.
    rewrite insert_empty. by rewrite <- insert_union_singleton_l.
Qed.

Lemma snapshot_list_to_map l : snapshot l = list_to_map (reverse l).
Proof.
  unfold snapshot. rewrite foldl_insert_list_to_map. apply (right_id_L ∅ (∪)).
Qed.

Lemma snapshot_lookup_Some l f i : snapshot l !! f = Some i -> (f, i) ∈ l.
Proof.
  rewrite snapshot_list_to_map. intros H.
  apply elem_of_list_to_map_2 in H. by apply elem_of_reverse.
Qed.

Lemma snapshot_lookup_NoDup l f i :
  NoDup l.*1 -> (f, i) ∈ l -> snapshot l !! f = Some i.
Proof.
  intros Hnd Hin. rewrite snapshot_list_to_map.
  apply elem_of_list_to_map_1.
  - by rewrite fmap_reverse, reverse_Permutation.
  - by apply elem_of_reverse.
Qed.

Lemma snapshot_lookup_is_Some l f : f ∈ l.*1 <-> is_Some (snapshot l !! f).
Proof.
  rewrite snapshot_list_to_map. rewrite <- not_eq_None_Some.
  rewrite <- not_elem_of_list_to_map, fmap_reverse, elem_of_reverse.
  destruct (decide (f ∈ l.*1)); naive_solver.
Qed.


Lemma itemOf_walked pats v : (itemOf pats v).*1 `sublist_of` walkedFile v.
Proof.
  unfold itemOf, walkedFile. destruct (info v) as [i|]; [|done].
  destruct (IsDir i); [done|].
  destruct (matchesAny pats (file v)); [done | apply sublist_nil_l].
Qed.


Lemma items_sublist_walked pats vs : (items pats vs).*1 `sublist_of` walkedFiles vs.
Proof.
  induction vs as [|v vs IH]; [done|].
  change (walkedFiles (v :: vs)) with (walkedFile v ++ walkedFiles vs).
  pose proof (itemOf_walked pats v) as Hv.
  simpl items. destruct (verr v).
  - by apply sublist_inserts_r.
  - rewrite fmap_app. by apply sublist_app.
Qed.

Lemma items_NoDup pats vs : NoDup (walkedFiles vs) -> NoDup (items pats vs).*1.
Proof. intros H. eapply sublist_NoDup; [done | apply items_sublist_walked]. Qed.





Lemma forward_kinds last l :
  Forall (fun n => event n = FileCreate \/ event n = FileUpdate)
         (flat_map (diffNotice last) l).
Proof.
  induction l as [|p l IH]; simpl; [done|].
  apply Forall_app. split; [|done].
  unfold diffNotice. destruct last as [prev|]; [|done].
  destruct (prev !! p.1); [destruct (After _ _ || negb _)|];
    first [apply Forall_nil_2 | apply Forall_singleton; simpl; auto].
Qed.


Lemma removals_kinds (l : list (string * FileInfo)) (seen : gmap string FileInfo) :
  Forall (fun n => event n = FileRemove)
    (flat_map (fun '(f, i) => match seen !! f with
                              | Some _ => []
                              | None => [mkNotice f FileRemove i]
                              end) l).
Proof.
  induction l as [|[f i] l IH]; simpl; [done|].
  apply Forall_app. split; [|done]. destruct (seen !! f); repeat constructor.
Qed.




Lemma forward_first_scan l : flat_map (diffNotice None) l = [].
Proof. induction l as [|p l IH]; simpl; done. Qed.

Lemma forward_unchanged prev l :
  (forall f i, (f, i) ∈ l -> prev !! f = Some i) ->
  flat_map (diffNotice (Some prev)) l = [].
Proof.
  induction l as [|[f i] l IH]; simpl; intros H; [done|].
  rewrite IH by (intros; apply H; by right).
  unfold diffNotice. simpl. rewrite (H f i) by left.
  unfold After. rewrite Z.ltb_irrefl, Z.eqb_refl. done.
Qed.

Lemma fairRange_map_to_list : fairRange map_to_list.
Proof. intros m. reflexivity. Qed.

(** * The scanner: theorems *)

(** C1, as the code has it. A cycle whose walk returns at all, with or
    without an error, ends by replacing [lastCheck] with the map of the
    items visited in that cycle; after a failed walk that is the partial
    map of what was visited up to the error, and the error goes to the
    status channel. *)
Theorem lastCheck_replaced_by_every_cycle range s vs s' ns err :
  scanCycle range s vs = Done (s', ns, err) ->
  lastCheck s' = Some (snapshot (items (pattern s) vs)) /\ err = walkErr vs.
Proof.
  intros H. pose proof (scanCycle_Done _ _ _ _ _ _ H) as Hd. cbv zeta in Hd.
  destruct Hd as (-> & -> & _). done.
Qed.

Lemma lastCheck_replaced_by_every_cycle_witness :
  scanCycle map_to_list nestedScanner deniedWalk
  = Done (mkPathScanner "root" [] (Some {["root/a" := regular 1 10]}),
          [mkNotice "root/sub/b" FileRemove (regular 1 20)],
          Some "permission denied"%string)
  /\ (Some ({["root/a" := regular 1 10]} : gmap string FileInfo)
      = Some (snapshot (items [] deniedWalk))
      /\ Some "permission denied"%string = walkErr deniedWalk).
Proof.
  assert (H : scanCycle map_to_list nestedScanner deniedWalk
              = Done (mkPathScanner "root" [] (Some {["root/a" := regular 1 10]}),
                      [mkNotice "root/sub/b" FileRemove (regular 1 20)],
                      Some "permission denied"%string))
    by (vm_compute; reflexivity).
  split; [exact H|].
  exact (lastCheck_replaced_by_every_cycle map_to_list nestedScanner deniedWalk _ _ _ H).
Defined.

(** C1, as stated, fails: the walk below reports an error and the cycle
    still replaces the previous snapshot {a, sub/b} by the partial {a}. *)
Lemma failed_walk_changes_lastCheck :
  exists s' ns e,
    scanCycle map_to_list nestedScanner deniedWalk = Done (s', ns, Some e)
    /\ lastCheck s' <> lastCheck nestedScanner.
Proof.
  eexists _, _, _. split; [vm_compute; reflexivity|].
  intros H.
  apply (f_equal (fun o => o ≫= (.!! "root/sub/b"%string))) in H.
  vm_compute in H. discriminate H.
Qed.





(** C8. A first cycle, with [lastCheck] still nil, sends no notice of any
    kind, and every item it matched is in [lastCheck] afterwards. *)
Theorem first_cycle_is_a_silent_baseline range s vs s' ns err :
  lastCheck s = None ->
  scanCycle range s vs = Done (s', ns, err) ->
  ns = []
  /\ exists cur, lastCheck s' = Some cur
       /\ forall f, f ∈ (items (pattern s) vs).*1 <-> is_Some (cur !! f).
Proof.
  intros Hnil H.
  pose proof (scanCycle_Done _ _ _ _ _ _ H) as Hd. cbv zeta in Hd.
  destruct Hd as (-> & _ & rem & -> & Hrem). rewrite Hnil in *.
  split.
  - rewrite forward_first_scan. simpl.
    destruct Hrem as [->|(last & Hl & _)]; [done | discriminate Hl].
  - eexists. split; [done|]. apply snapshot_lookup_is_Some.
Qed.

Lemma first_cycle_is_a_silent_baseline_witness :
  scanCycle map_to_list freshScanner pairWalk
  = Done (pairScanner, [], None)
  /\ ([] : list Notice) = []
  /\ exists cur, lastCheck pairScanner = Some cur
       /\ forall f, f ∈ (items [] pairWalk).*1 <-> is_Some (cur !! f).
Proof.
  assert (H : scanCycle map_to_list freshScanner pairWalk
              = Done (pairScanner, [], None))
    by (vm_compute; reflexivity).
  split; [exact H|].
  refine (first_cycle_is_a_silent_baseline map_to_list freshScanner pairWalk
            _ _ _ _ H).
  reflexivity.
Defined.

Lemma entries_all_seen (prev : gmap string FileInfo) l :
  (forall f i, prev !! f = Some i -> (f, i) ∈ l) ->
  dom prev ⊆ dom (snapshot l).
Proof.
  intros Hin f Hf. apply elem_of_dom in Hf. destruct Hf as [i Hi].
  apply elem_of_dom, snapshot_lookup_is_Some, list_elem_of_fmap.
  exists (f, i). split; [done|]. by apply Hin.
Qed.

(** C9. A cycle whose items are exactly the entries of the previous
    snapshot, the same identities with the same modification times and
    sizes, sends no notice. *)
Theorem unchanged_tree_is_silent range s vs s' ns err prev :
  fairRange range ->
  scanCycle range s vs = Done (s', ns, err) ->
  lastCheck s = Some prev ->
  (forall f i, (f, i) ∈ items (pattern s) vs <-> prev !! f = Some i) ->
  ns = [].
Proof.
  intros Hfair H Hprev Hsame.
  pose proof (scanCycle_Done_fair _ _ _ _ _ _ Hfair H) as Hns. cbv zeta in Hns.
  rewrite Hprev in Hns. subst ns.
  rewrite forward_unchanged by (intros f i; apply Hsame).
  apply removePass_all_seen; [done|].
  apply entries_all_seen. intros f i. apply Hsame.
Qed.

Lemma unchanged_tree_is_silent_witness :
  scanCycle map_to_list pairScanner pairWalk = Done (pairScanner, [], None)
  /\ ([] : list Notice) = [].
Proof.
  assert (H : scanCycle map_to_list pairScanner pairWalk
              = Done (pairScanner, [], None))
    by (vm_compute; reflexivity).
  split; [exact H|].
  refine (unchanged_tree_is_silent map_to_list pairScanner pairWalk _ _ _
            (<["root/a" := regular 1 10]> {["root/b" := regular 1 20]}) _ H _ _).
  - intros m. reflexivity.
  - reflexivity.
  - intros f i.
    refine (elem_of_list_to_map (M:=gmap string)
              [("root/a"%string, regular 1 10); ("root/b"%string, regular 1 20)]
              f i _).
    apply (bool_decide_unpack _). vm_compute. exact I.
Defined.

(** X5. Two cycles over the same walk, each file met once: the second
    cycle sends nothing and leaves the snapshot as it is, whatever the
    scanner held before the first. *)
Lemma same_walk_twice_is_silent range s vs s1 ns1 err1 s2 ns2 err2 :
  fairRange range ->
  NoDup (walkedFiles vs) ->
  scanCycle range s vs = Done (s1, ns1, err1) ->
  scanCycle range s1 vs = Done (s2, ns2, err2) ->
  ns2 = [] /\ lastCheck s2 = lastCheck s1.
Proof.
  intros Hfair Hnd H1 H2.
  pose proof (scanCycle_Done _ _ _ _ _ _ H1) as Hd. cbv zeta in Hd.
  destruct Hd as (-> & _ & _).
  pose proof (scanCycle_Done_fair _ _ _ _ _ _ Hfair H2) as Hns. cbv zeta in Hns.
  pose proof (scanCycle_Done _ _ _ _ _ _ H2) as Hd. cbv zeta in Hd.
  destruct Hd as (-> & _ & _). simpl in *. split; [|done]. subst ns2.
  rewrite forward_unchanged.
  - apply removePass_all_seen; [done|]. apply entries_all_seen.
    intros f i. apply snapshot_lookup_Some.
  - intros f i. apply snapshot_lookup_NoDup, items_NoDup, Hnd.
Qed.

(** * The constructor: theorems *)

Lemma compileLoop_app Compile pats : forall acc,
  compileLoop Compile acc pats
  = do exps <- compileLoop Compile [] pats in Done (acc ++ exps).
Proof.
  induction pats as [|pat pats IH]; simpl; intros acc.
  - by rewrite app_nil_r.
  - destruct (Compile pat) as [exp|]; [|done].
    rewrite (IH (acc ++ _)), (IH [_]).
    destruct (compileLoop Compile [] pats); simpl; [|done].
    by rewrite <- app_assoc.
Qed.

(** What [New] stores is what the earlier revision compiled, behind one
    zero value per pattern. *)
Lemma New_patexp_Watch_patexp Compile pats :
  New_patexp Compile pats
  = do exps <- Watch_patexp Compile pats in
    Done (replicate (length pats) zeroRegexp ++ exps).
Proof. apply compileLoop_app. Qed.

Lemma zero_pattern_faults range addr pats last f i e vs :
  IsDir i = false ->
  scanCycle range (mkPathScanner addr (zeroRegexp :: pats) last)
            (mkVisit f (Some i) e :: vs)
  = Abort NilDereference.
Proof. intros Hi. unfold scanCycle. simpl. unfold walkFn. simpl. by rewrite Hi. Qed.

(** With no pattern every path is matched. *)
Lemma New_without_patterns_matches_all Compile addr f :
  New Compile addr [] (byName "path")
  = Done (usePathScanner (mkPathScanner addr [] None))
  /\ matched [] f = Done true.
Proof. done. Qed.

(** C3, on the code. [New] with the one pattern [\.log$] stores two
    patterns, a zero [Regexp] before the compiled one, where the earlier
    revision stores the compiled one alone; the scanner built by [New] then
    stops with a nil dereference at the first file of the walk, whether the
    file matches the pattern or not. *)
Theorem New_log_pattern_scanner_faults Compile exp range :
  Compile logPattern = inl exp ->
  New Compile "root" [logPattern] (byName "path")
  = Done (usePathScanner
            (mkPathScanner "root" [zeroRegexp; mkRegexp (Some exp)] None))
  /\ Watch_patexp Compile [logPattern] = Done [mkRegexp (Some exp)]
  /\ scanCycle range
       (mkPathScanner "root" [zeroRegexp; mkRegexp (Some exp)] None) logWalk
     = Abort NilDereference
  /\ scanCycle range
       (mkPathScanner "root" [zeroRegexp; mkRegexp (Some exp)] None)
       [seen "root" directory; seen "root/b.log" (regular 1 20)]
     = Abort NilDereference.
Proof.
  intros Hc. unfold New, New_patexp, Watch_patexp. simpl. rewrite Hc. simpl.
  repeat split; reflexivity.
Qed.

Lemma New_log_pattern_scanner_faults_witness :
  compileLog logPattern = inl endsInLog
  /\ New compileLog "root" [logPattern] (byName "path")
     = Done (usePathScanner
               (mkPathScanner "root" [zeroRegexp; mkRegexp (Some endsInLog)] None))
  /\ Watch_patexp compileLog [logPattern] = Done [mkRegexp (Some endsInLog)]
  /\ scanCycle map_to_list
       (mkPathScanner "root" [zeroRegexp; mkRegexp (Some endsInLog)] None) logWalk
     = Abort NilDereference
  /\ scanCycle map_to_list
       (mkPathScanner "root" [zeroRegexp; mkRegexp (Some endsInLog)] None)
       [seen "root" directory; seen "root/b.log" (regular 1 20)]
     = Abort NilDereference.
Proof.
  split; [reflexivity|].
  apply (New_log_pattern_scanner_faults compileLog endsInLog map_to_list).
  reflexivity.
Defined.

(** What the same walk gives once the pattern slice holds the compiled
    pattern alone, as in the earlier revision. *)
Example log_pattern_alone_filters :
  exists s',
    scanCycle map_to_list
      (mkPathScanner "root" [mkRegexp (Some endsInLog)] None) logWalk
    = Done (s', [], None)
    /\ lastCheck s' = Some {["root/b.log" := regular 1 20]}.
Proof. eexists. split; vm_compute; reflexivity. Qed.

(** * The dispatch loop: theorems *)

Ltac step_cases H :=
  unfold step in H;
  repeat match type of H with
         | context [match ?x with _ => _ end] => destruct x eqn:?
         end;
  try discriminate H; injection H as <-.

Lemma forward_only_n events n m : m ∈ forward events n -> m = n.
Proof.
  induction events as [|e events IH]; simpl.
  - intros H. by apply elem_of_nil in H.
  - destruct (e =? Type_ n); [|done].
    intros [->|H]%elem_of_cons; auto.
Qed.

Lemma forward_exact events n : n ∈ forward events n <-> Type_ n ∈ events.
Proof.
  induction events as [|e events IH]; simpl.
  - by rewrite !elem_of_nil.
  - rewrite elem_of_cons. destruct (Z.eqb_spec e (Type_ n)) as [->|Hne].
    + split; intros _; left; done.
    + rewrite IH. split; [by right|]. intros [?|?]; [by subst | done].
Qed.

Lemma forward_replicate events n :
  forward events n
  = replicate (length (filter (fun e => e = Type_ n) events)) n.
Proof.
  induction events as [|e events IH]; simpl; [done|].
  rewrite filter_cons. destruct (Z.eqb_spec e (Type_ n)) as [->|Hne].
  - rewrite decide_True by done. simpl. by rewrite IH.
  - by rewrite decide_False.
Qed.

Lemma step_Drain range events p p' n rest :
  step range events Drain p = Next p' ->
  noticeBuffer p = n :: rest ->
  notices p' = notices p ++ forward events n /\ noticeBuffer p' = rest.
Proof.
  intros H Hbuf. unfold step in H. rewrite Hbuf in H.
  destruct (monitor p); try discriminate H. by injection H as <-.
Qed.

Lemma step_serialized range events a p p' :
  serialized p -> step range events a p = Next p' -> serialized p'.
Proof.
  intros (H1 & H2 & H3) H. unfold serialized, busy in *.
  destruct a; step_cases H; simpl;
    repeat match goal with
           | E : monitor p = _ |- _ => rewrite E in *; clear E
           | E : worker p = _ |- _ => rewrite E in *; clear E
           | E : timeTick p = _ |- _ => rewrite E in *; clear E
           end;
    repeat split; intros; try congruence; try lia;
    try (destruct H2 as [? ?]; [done|]; congruence);
    try (by apply H3);
    try (by apply H2).
Qed.

Lemma run_serialized range events tr : forall p p',
  serialized p -> run range events tr p = Next p' -> serialized p'.
Proof.
  induction tr as [|a tr IH]; simpl; intros p p' Hp H.
  - by injection H as <-.
  - destruct (step range events a p) as [q| |] eqn:E; try discriminate H.
    eapply IH; [|exact H]. eapply step_serialized; eauto.
Qed.

Lemma boot_serialized s : serialized (boot s).
Proof. unfold serialized. simpl. repeat split; intros; done. Qed.

Lemma step_quietStop range events a p p' :
  quietStop p -> step range events a p = Next p' -> quietStop p'.
Proof.
  intros (H1 & H2) H. unfold quietStop, Stop_after in *.
  destruct a; step_cases H; simpl;
    repeat match goal with
           | E : monitor p = _ |- _ => rewrite E in *; clear E
           | E : worker p = _ |- _ => rewrite E in *; clear E
           | E : released p = _ |- _ => rewrite E in *; clear E
           | E : stopped p = _ |- _ => rewrite E in *; clear E
           end;
    try (split; [exact H1 | exact H2]);
    intuition (try congruence; eauto);
    unfold Stop_after in *; simplify_eq; auto.
Qed.

Lemma run_quietStop range events tr : forall p p',
  quietStop p -> run range events tr p = Next p' -> quietStop p'.
Proof.
  induction tr as [|a tr IH]; simpl; intros p p' Hp H.
  - by injection H as <-.
  - destruct (step range events a p) as [q| |] eqn:E; try discriminate H.
    eapply IH; [|exact H]. eapply step_quietStop; eauto.
Qed.

Lemma boot_quietStop s : quietStop (boot s).
Proof. unfold quietStop. simpl. auto. Qed.

(** Only notices of a listed kind reach [m.notices]. *)
Lemma step_listed range events a p p' :
  (forall m, m ∈ notices p -> Type_ m ∈ events) ->
  step range events a p = Next p' ->
  forall m, m ∈ notices p' -> Type_ m ∈ events.
Proof.
  intros Hp H. destruct a; step_cases H; simpl; try exact Hp.
  intros m [Hm|Hm]%elem_of_app; [by apply Hp|].
  pose proof (forward_only_n _ _ _ Hm) as ->. by apply forward_exact.
Qed.

Lemma run_listed range events tr : forall p p',
  (forall m, m ∈ notices p -> Type_ m ∈ events) ->
  run range events tr p = Next p' ->
  forall m, m ∈ notices p' -> Type_ m ∈ events.
Proof.
  induction tr as [|a tr IH]; simpl; intros p p' Hp H.
  - by injection H as <-.
  - destruct (step range events a p) as [q| |] eqn:E; try discriminate H.
    eapply IH; [|exact H]. eapply step_listed; eauto.
Qed.

Lemma boot_listed (events : list Event) s m :
  m ∈ notices (boot s) -> Type_ m ∈ events.
Proof. simpl. intros H. by apply elem_of_nil in H. Qed.

(** C2, as the code has it. The branch that takes a notice from the
    buffer sends on [m.notices] only that notice, and sends it exactly when
    its kind is equal to one of the kinds passed to [Start]; so every
    notice sent on [m.notices] has a kind that was passed to [Start]. *)
Theorem forwarding_is_by_exact_kind range events s tr p :
  run range events tr (boot s) = Next p ->
  (forall m, m ∈ notices p -> Type_ m ∈ events)
  /\ forall p' n rest,
       step range events Drain p = Next p' ->
       noticeBuffer p = n :: rest ->
       notices p' = notices p ++ forward events n
       /\ (forall m, m ∈ forward events n -> m = n)
       /\ (n ∈ forward events n <-> Type_ n ∈ events).
Proof.
  intros Hrun. split.
  - apply (run_listed _ _ _ _ _ (boot_listed events s) Hrun).
  - intros p' n rest H Hbuf. destruct (step_Drain _ _ _ _ _ _ H Hbuf) as [Hn _].
    split; [done|]. split; [apply forward_only_n | apply forward_exact].
Qed.

Lemma forwarding_is_by_exact_kind_witness :
  exists p,
    run map_to_list [FileCreate] [TimerFires; Handoff newcomerWalk; Emit]
        (boot emptyScanner) = Next p
    /\ (forall m, m ∈ notices p -> Type_ m ∈ [FileCreate])
    /\ forall p' n rest,
         step map_to_list [FileCreate] Drain p = Next p' ->
         noticeBuffer p = n :: rest ->
         notices p' = notices p ++ forward [FileCreate] n
         /\ (forall m, m ∈ forward [FileCreate] n -> m = n)
         /\ (n ∈ forward [FileCreate] n <-> Type_ n ∈ [FileCreate]).
Proof.
  eexists. split; [vm_compute; reflexivity|].
  apply (forwarding_is_by_exact_kind map_to_list [FileCreate] emptyScanner
           [TimerFires; Handoff newcomerWalk; Emit]).
  vm_compute. reflexivity.
Defined.

(** C2, as stated, fails: a notice whose kind is Create|Update includes the
    Create bit, and a subscriber asking for Create does not receive it. *)
Lemma mixed_kind_is_not_forwarded :
  Z.land (Type_ mixedNotice) FileCreate = FileCreate
  /\ forward [FileCreate] mixedNotice = []
  /\ exists p',
       step map_to_list [FileCreate] Drain (holding mixedNotice) = Next p'
       /\ notices p' = [].
Proof.
  split; [reflexivity|]. split; [reflexivity|].
  eexists. split; reflexivity.
Qed.

(** C10. A notice taken from the buffer is sent on [m.notices] once for
    every occurrence of its kind in the list passed to [Start]; with an
    empty list nothing is ever sent. *)
Theorem delivery_once_per_listed_kind range events s tr p :
  run range events tr (boot s) = Next p ->
  (events = [] -> notices p = [])
  /\ forall p' n rest,
       step range events Drain p = Next p' ->
       noticeBuffer p = n :: rest ->
       notices p'
       = notices p
         ++ replicate (length (filter (fun e => e = Type_ n) events)) n.
Proof.
  intros Hrun. split.
  - intros ->. pose proof (run_listed _ _ _ _ _ (boot_listed [] s) Hrun) as H.
    destruct (notices p) as [|m l]; [done|].
    specialize (H m (list_elem_of_here m l)). by apply elem_of_nil in H.
  - intros p' n rest H Hbuf. destruct (step_Drain _ _ _ _ _ _ H Hbuf) as [Hn _].
    by rewrite Hn, forward_replicate.
Qed.

Lemma delivery_once_per_listed_kind_witness :
  exists p q,
    run map_to_list [FileCreate; FileUpdate; FileCreate]
        [TimerFires; Handoff newcomerWalk; Emit] (boot emptyScanner) = Next p
    /\ step map_to_list [FileCreate; FileUpdate; FileCreate] Drain p = Next q
    /\ notices q = replicate 2 (mkNotice "root/a" FileCreate (regular 1 10))
    /\ ([FileCreate; FileUpdate; FileCreate] = [] -> notices p = [])
    /\ forall p' n rest,
         step map_to_list [FileCreate; FileUpdate; FileCreate] Drain p = Next p' ->
         noticeBuffer p = n :: rest ->
         notices p'
         = notices p
           ++ replicate (length (filter (fun e => e = Type_ n)
                                        [FileCreate; FileUpdate; FileCreate])) n.
Proof.
  eexists _, _. split; [vm_compute; reflexivity|].
  split; [vm_compute; reflexivity|]. split; [reflexivity|].
  apply (delivery_once_per_listed_kind map_to_list
           [FileCreate; FileUpdate; FileCreate] emptyScanner
           [TimerFires; Handoff newcomerWalk; Emit]).
  vm_compute. reflexivity.
Defined.

(** C4, as the code has it. Whatever the cycles reported, the value the
    loop releases on [returning] is nil, and it is released only when the
    loop has returned and the worker has exited; so once [Stop] has
    returned, the value it returned is nil, and [m.notices] is closed. *)
Theorem Stop_returns_nil range events s tr p :
  run range events tr (boot s) = Next p ->
  (forall e, released p = Some e ->
     e = None /\ monitor p = Returned /\ worker p = Exited)
  /\ (forall r, stopped p = Some r ->
        r = None /\ released p = Some None /\ monitor p = Returned
        /\ worker p = Exited /\ noticesClosed p = true).
Proof.
  intros Hrun.
  destruct (run_quietStop _ _ _ _ _ (boot_quietStop s) Hrun) as [H1 H2].
  split.
  - intros e He. destruct H1 as [H1|(H1 & Hm & Hw)]; [congruence|].
    split; [congruence | done].
  - intros r Hr. destruct H2 as [H2|(H2 & Hrel & Hcl)]; [congruence|].
    destruct H1 as [H1|(_ & Hm & Hw)]; [congruence|].
    split; [congruence | done].
Qed.

Lemma Stop_returns_nil_witness :
  exists p,
    run map_to_list [FileCreate]
        [TimerFires; Handoff deniedWalk; Emit; Finish; Report;
         StopCalled; WorkerExits; Shutdown; StopReturns]
        (boot nestedScanner) = Next p
    /\ released p = Some None /\ stopped p = Some None
    /\ (forall e, released p = Some e ->
          e = None /\ monitor p = Returned /\ worker p = Exited)
    /\ (forall r, stopped p = Some r ->
          r = None /\ released p = Some None /\ monitor p = Returned
          /\ worker p = Exited /\ noticesClosed p = true).
Proof.
  eexists. split; [vm_compute; reflexivity|]. split; [reflexivity|].
  split; [reflexivity|].
  apply (Stop_returns_nil map_to_list [FileCreate] nestedScanner
           [TimerFires; Handoff deniedWalk; Emit; Finish; Report;
            StopCalled; WorkerExits; Shutdown; StopReturns]).
  vm_compute. reflexivity.
Defined.

(** C4, as stated, fails: the worker reports an error for its last cycle,
    and [Stop] returns nil. *)
Lemma failed_cycle_then_Stop_gives_nil :
  exists p q,
    run map_to_list [FileCreate]
        [TimerFires; Handoff deniedWalk; Emit; Finish] (boot nestedScanner)
    = Next p
    /\ worker p = Reporting (Some "permission denied"%string)
    /\ run map_to_list [FileCreate]
           [Report; StopCalled; WorkerExits; Shutdown; StopReturns] p
       = Next q
    /\ begun q = 1%nat
    /\ stopped q = Some None.
Proof.
  eexists _, _. split; [vm_compute; reflexivity|].
  split; [reflexivity|]. split; [vm_compute; reflexivity|].
  split; reflexivity.
Qed.

(** C5. In every state the loop can reach, at most one scan request is
    under way, at most one cycle has begun and is not yet reported, and
    the timer is nil for as long; the loop
    takes the timer branch, and the worker takes a buffer, only when every
    cycle begun has been reported; and receiving a status sets the timer
    again. *)
Theorem scan_cycles_are_serialized range events s tr p :
  run range events tr (boot s) = Next p ->
  (outstanding p <= 1)%nat
  /\ (outstanding p = 1%nat -> timeTick p = None)
  /\ (begun p <= reported p + 1)%nat
  /\ (begun p = (reported p + 1)%nat -> timeTick p = None)
  /\ (forall p', step range events TimerFires p = Next p' ->
        begun p = reported p /\ timeTick p' = None)
  /\ (forall vs p', step range events (Handoff vs) p = Next p' ->
        begun p = reported p /\ timeTick p' = None
        /\ begun p' = S (reported p'))
  /\ (forall p', step range events Report p = Next p' ->
        is_Some (timeTick p') /\ reported p' = begun p').
Proof.
  intros Hrun.
  pose proof (run_serialized _ _ _ _ _ (boot_serialized s) Hrun) as Hp.
  assert (Hstep : forall a p', step range events a p = Next p' -> serialized p')
    by (intros a p'; apply step_serialized, Hp).
  destruct Hp as (H1 & H2 & H3).
  split; [unfold outstanding; destruct (busy p), (monitor p); try lia;
          by destruct H2 as [_ []]|].
  split; [unfold outstanding; destruct (busy p);
          [intros _; by apply H2
          |destruct (monitor p); try (intros; lia); intros _; by apply H3]|].
  split; [destruct (busy p); lia|].
  split; [intros Hb; destruct (busy p); [by apply H2 | lia]|].
  split; [|split].
  - intros p' H. pose proof (Hstep _ _ H) as (_ & _ & H3').
    unfold busy in *. step_cases H. simpl in *.
    destruct (worker p); try (destruct H2; [done|]; congruence);
      split; (lia || done).
  - intros vs p' H. pose proof (Hstep _ _ H) as (H1' & H2' & _).
    unfold busy in *. step_cases H. simpl in *.
    repeat match goal with E : worker p = _ |- _ => rewrite E in * end.
    split; [lia|]. split; [by apply H3 | lia].
  - intros p' H. pose proof (Hstep _ _ H) as (H1' & _ & _).
    unfold busy in *. step_cases H; simpl in *; split; eauto; lia.
Qed.

Lemma scan_cycles_are_serialized_witness :
  exists p,
    run map_to_list [FileUpdate]
        [TimerFires; Handoff touchedWalk; Emit; Drain; Finish]
        (boot touchedScanner) = Next p
    /\ (outstanding p <= 1)%nat
    /\ (outstanding p = 1%nat -> timeTick p = None)
    /\ (begun p <= reported p + 1)%nat
    /\ (begun p = (reported p + 1)%nat -> timeTick p = None)
    /\ (forall p', step map_to_list [FileUpdate] TimerFires p = Next p' ->
          begun p = reported p /\ timeTick p' = None)
    /\ (forall vs p', step map_to_list [FileUpdate] (Handoff vs) p = Next p' ->
          begun p = reported p /\ timeTick p' = None
          /\ begun p' = S (reported p'))
    /\ (forall p', step map_to_list [FileUpdate] Report p = Next p' ->
          is_Some (timeTick p') /\ reported p' = begun p').
Proof.
  eexists. split; [vm_compute; reflexivity|].
  apply (scan_cycles_are_serialized map_to_list [FileUpdate] touchedScanner
           [TimerFires; Handoff touchedWalk; Emit; Drain; Finish]).
  vm_compute. reflexivity.
Defined.

(** * Further properties of the scanner *)

Lemma Walk_app fn vs1 vs2 : forall c,
  Walk fn (vs1 ++ vs2) c
  = do (c', e) <- Walk fn vs1 c in
    match e with
    | Some _ => Done (c', e)
    | None => Walk fn vs2 c'
    end.
Proof.
  induction vs1 as [|v vs1 IH]; simpl; intros c; [done|].
  destruct (fn c v) as [[c1 e1]|]; simpl; [|done].
  destruct e1; [done | apply IH].
Qed.

Lemma walkErr_app vs1 vs2 :
  walkErr (vs1 ++ vs2)
  = match walkErr vs1 with
    | Some e => Some e
    | None => walkErr vs2
    end.
Proof.
  induction vs1 as [|v vs1 IH]; simpl; [done|]. by destruct (verr v).
Qed.

Lemma matchLoop_Abort pats f flt :
  matchLoop pats f = Abort flt -> flt = NilDereference /\ compiled pats = false.
Proof.
  induction pats as [|re pats IH]; simpl; [discriminate|].
  unfold FindStringIndex. destruct (prog re) as [p|]; simpl.
  - destruct (p f); [discriminate|]. intros H. apply IH in H as [-> Hc].
    split; [done|]. simpl. rewrite Hc. by rewrite ?andb_false_r.
  - intros [= <-]. done.
Qed.

Lemma walkFn_Abort s c v flt :
  walkFn s c v = Abort flt ->
  flt = NilDereference /\ (compiled (pattern s) = false \/ info v = None).
Proof.
  unfold walkFn. destruct (info v) as [i|]; [|intros [= <-]; auto].
  destruct (IsDir i); [discriminate|]. unfold matched.
  destruct (matchLoop (pattern s) (file v)) as [m|flt'] eqn:E; simpl.
  - by destruct (negb _).
  - intros [= <-]. apply matchLoop_Abort in E as [-> ?]. auto.
Qed.

Lemma Walk_Abort s vs : forall c flt,
  Walk (walkFn s) vs c = Abort flt ->
  flt = NilDereference /\ (compiled (pattern s) = false \/ statted vs = false).
Proof.
  induction vs as [|v vs IH]; simpl; intros c flt; [discriminate|].
  destruct (walkFn s c v) as [[c1 e1]|flt'] eqn:E; simpl.
  - destruct e1; [discriminate|]. intros H. apply IH in H as [-> [?|Hs]]; auto.
    split; [done|]. right. simpl. rewrite Hs. by rewrite ?andb_false_r.
  - intros [= <-]. apply walkFn_Abort in E as [-> [?|Hi]]; auto.
    split; [done|]. right. simpl. rewrite Hi. done.
Qed.

Lemma scanCycle_Walk range s vs :
  scanCycle range s vs
  = do (c, err) <- Walk (walkFn s) vs newCycle in
    Done (mkPathScanner (address s) (pattern s) (Some (visited c)),
          changed c
          ++ match lastCheck s with
             | Some last =>
                 if Z.of_nat (size (visited c)) - created c <? Z.of_nat (size last)
                 then removePass range last (visited c)
                 else []
             | None => []
             end, err).
Proof. reflexivity. Qed.

Lemma Walk_items_facts s vs : forall c c' e,
  Walk (walkFn s) vs c = Done (c', e) ->
  forall f i, (f, i) ∈ items (pattern s) vs ->
    IsDir i = false /\ matched (pattern s) f = Done true
    /\ exists v, v ∈ vs /\ file v = f /\ info v = Some i.
Proof.
  induction vs as [|v vs IH]; simpl; intros c c' e H f i Hin.
  - by apply elem_of_nil in Hin.
  - destruct (walkFn s c v) as [[c1 e1]|] eqn:E; simpl in H; [|discriminate].
    assert (Hhead : (f, i) ∈ itemOf (pattern s) v ->
                    IsDir i = false /\ matched (pattern s) f = Done true
                    /\ exists v0, v0 ∈ v :: vs /\ file v0 = f /\ info v0 = Some i).
    { unfold itemOf, walkFn in *. destruct (info v) as [i0|] eqn:Ei;
        [|intros Hx; by apply elem_of_nil in Hx].
      destruct (IsDir i0) eqn:Ed; [intros Hx; by apply elem_of_nil in Hx|].
      destruct (matched (pattern s) (file v)) as [m|] eqn:Em; simpl in E;
        [|discriminate].
      pose proof (matched_Done _ _ _ Em) as ->.
      destruct (matchesAny (pattern s) (file v));
        [|intros Hx; by apply elem_of_nil in Hx].
      intros Hx. apply list_elem_of_singleton in Hx. injection Hx as -> ->.
      split; [done|]. split; [done|]. exists v. split; [left|done]. }
    pose proof (walkFn_Done _ _ _ _ _ E) as [_ ->].
    destruct (verr v).
    + auto.
    + apply elem_of_app in Hin as [Hin|Hin]; [auto|].
      destruct (IH _ _ _ H f i Hin) as (? & ? & v0 & ? & ? & ?).
      split; [done|]. split; [done|]. exists v0. split; [by right | done].
Qed.



(** X2. What a cycle leaves in [lastCheck] are files of the walk: every
    entry was handed to the walk function under that path with that info,
    is not a directory, and has a path that the pattern loop matched. *)
Theorem snapshot_holds_matched_files range s vs s' ns err cur f i :
  scanCycle range s vs = Done (s', ns, err) ->
  lastCheck s' = Some cur ->
  cur !! f = Some i ->
  IsDir i = false
  /\ matched (pattern s) f = Done true
  /\ exists v, v ∈ vs /\ file v = f /\ info v = Some i.
Proof.
  intros H Hcur Hf.
  pose proof (scanCycle_Done _ _ _ _ _ _ H) as Hd. cbv zeta in Hd.
  destruct Hd as (-> & _ & _). simpl in Hcur. injection Hcur as <-.
  apply snapshot_lookup_Some in Hf.
  rewrite scanCycle_Walk in H.
  destruct (Walk (walkFn s) vs newCycle) as [[c e]|] eqn:E; [|discriminate].
  by apply (Walk_items_facts _ _ _ _ _ E).
Qed.

Lemma snapshot_holds_matched_files_witness :
  scanCycle map_to_list freshScanner pairWalk = Done (pairScanner, [], None)
  /\ IsDir (regular 1 20) = false
  /\ matched [] "root/b" = Done true
  /\ exists v, v ∈ pairWalk /\ file v = "root/b"%string
               /\ info v = Some (regular 1 20).
Proof.
  assert (H : scanCycle map_to_list freshScanner pairWalk
              = Done (pairScanner, [], None))
    by (vm_compute; reflexivity).
  split; [exact H|].
  refine (snapshot_holds_matched_files map_to_list freshScanner pairWalk
            _ _ _ _ "root/b" (regular 1 20) H eq_refl _).
  vm_compute. reflexivity.
Defined.

(** X3. The walk ends at the first call that carries an error: the calls
    after it change nothing, and the status of such a cycle is an error. *)
Theorem walk_stops_at_first_error range s vs1 v vs2 :
  is_Some (verr v) ->
  scanCycle range s (vs1 ++ v :: vs2) = scanCycle range s (vs1 ++ [v])
  /\ forall s' ns err,
       scanCycle range s (vs1 ++ v :: vs2) = Done (s', ns, err) -> is_Some err.
Proof.
  intros [e He]. split.
  - rewrite !scanCycle_Walk, !Walk_app.
    destruct (Walk (walkFn s) vs1 newCycle) as [[c1 e1]|]; [|done]. simpl.
    destruct e1; [done|]. simpl.
    destruct (walkFn s c1 v) as [[c2 e2]|] eqn:E; [|done]. simpl.
    apply walkFn_Done in E as [_ ->]. by rewrite He.
  - intros s' ns err H. apply scanCycle_Done in H. cbv zeta in H.
    destruct H as (_ & -> & _). rewrite walkErr_app. simpl. rewrite He.
    by destruct (walkErr vs1).
Qed.

Lemma walk_stops_at_first_error_witness :
  is_Some (verr (unreadable "root/sub"))
  /\ scanCycle map_to_list nestedScanner
       ([seen "root" directory; seen "root/a" (regular 1 10);
         seen "root/sub" directory]
        ++ unreadable "root/sub" :: [seen "root/sub/b" (regular 9 99)])
     = scanCycle map_to_list nestedScanner
         ([seen "root" directory; seen "root/a" (regular 1 10);
           seen "root/sub" directory] ++ [unreadable "root/sub"])
  /\ forall s' ns err,
       scanCycle map_to_list nestedScanner
         ([seen "root" directory; seen "root/a" (regular 1 10);
           seen "root/sub" directory]
          ++ unreadable "root/sub" :: [seen "root/sub/b" (regular 9 99)])
       = Done (s', ns, err) -> is_Some err.
Proof.
  assert (H : is_Some (verr (unreadable "root/sub"))) by (simpl; eauto).
  split; [exact H|].
  exact (walk_stops_at_first_error map_to_list nestedScanner _ _ _ H).
Defined.

(** X4. A call that carries no info, as Walk makes when Lstat fails (for
    one, on a root that does not exist), takes the worker down with a nil
    dereference, whatever error comes with it: the walk function reads
    [info.IsDir()] before it looks at the error. *)
Theorem call_without_info_faults range s vs1 f e vs2 :
  walkErr vs1 = None ->
  scanCycle range s (vs1 ++ mkVisit f None e :: vs2) = Abort NilDereference.
Proof.
  intros Hok. rewrite scanCycle_Walk, Walk_app.
  destruct (Walk (walkFn s) vs1 newCycle) as [[c1 e1]|flt] eqn:E; simpl.
  - apply Walk_Done in E as [_ ->]. rewrite Hok. reflexivity.
  - by apply Walk_Abort in E as [-> _].
Qed.

Lemma call_without_info_faults_witness :
  walkErr [] = None
  /\ scanCycle map_to_list freshScanner
       ([] ++ mkVisit "root" None (Some "no such file or directory"%string) :: [])
     = Abort NilDereference.
Proof.
  split; [reflexivity|].
  apply (call_without_info_faults map_to_list freshScanner [] "root"
           (Some "no such file or directory"%string) []).
  reflexivity.
Defined.

(** X6. A cycle faults only when some pattern of the scanner has no
    compiled program or some call of the walk carries no info. *)
Theorem cycle_faults_only_without_program_or_info range s vs flt :
  scanCycle range s vs = Abort flt ->
  compiled (pattern s) = false \/ statted vs = false.
Proof.
  intros H. rewrite scanCycle_Walk in H.
  destruct (Walk (walkFn s) vs newCycle) as [[c e]|flt'] eqn:E;
    [discriminate|].
  by apply Walk_Abort in E as [_ ?].
Qed.

Lemma cycle_faults_only_without_program_or_info_witness :
  scanCycle map_to_list freshScanner
    [mkVisit "root" None (Some "no such file or directory"%string)]
  = Abort NilDereference
  /\ (compiled (pattern freshScanner) = false
      \/ statted [mkVisit "root" None (Some "no such file or directory"%string)]
         = false).
Proof.
  assert (H : scanCycle map_to_list freshScanner
                [mkVisit "root" None (Some "no such file or directory"%string)]
              = Abort NilDereference) by reflexivity.
  split; [exact H|].
  exact (cycle_faults_only_without_program_or_info map_to_list _ _ _ H).
Defined.

(** * Further properties of the constructor *)

Lemma compileLoop_nil_Done Compile pats : forall exps,
  compileLoop Compile [] pats = Done exps ->
  length exps = length pats /\ compiled exps = true.
Proof.
  induction pats as [|pat pats IH]; simpl; intros exps.
  - intros [= <-]. done.
  - destruct (Compile pat) as [exp|]; [|discriminate].
    rewrite compileLoop_app.
    destruct (compileLoop Compile [] pats) as [rest|] eqn:E; [|discriminate].
    simpl. intros [= <-]. destruct (IH rest eq_refl) as [Hlen Hc].
    simpl. by rewrite Hlen, Hc.
Qed.

Lemma compileLoop_Abort Compile pats : forall acc flt,
  compileLoop Compile acc pats = Abort flt <->
  flt = FatalExit /\ exists pat e, pat ∈ pats /\ Compile pat = inr e.
Proof.
  induction pats as [|pat pats IH]; simpl; intros acc flt.
  - split; [discriminate|]. intros (_ & pat & e & Hin & _).
    by apply elem_of_nil in Hin.
  - destruct (Compile pat) as [exp|e] eqn:E.
    + rewrite IH. split; intros (-> & p & e & Hin & Hp); (split; [done|]).
      * exists p, e. split; [by right | done].
      * apply elem_of_cons in Hin as [->|Hin]; [congruence|]. by exists p, e.
    + split.
      * intros [= <-]. split; [done|]. exists pat, e. split; [left | done].
      * by intros (-> & _).
Qed.

Lemma New_patexp_zero_prefix Compile pats exps :
  New_patexp Compile pats = Done exps ->
  exists rest, exps = replicate (length pats) zeroRegexp ++ rest.
Proof.
  rewrite New_patexp_Watch_patexp.
  destruct (Watch_patexp Compile pats) as [rest|]; [|discriminate].
  simpl. intros [= <-]. by exists rest.
Qed.

(** X7. In the earlier revision, where the pattern slice starts empty: a
    list of patterns that compiles gives one compiled pattern each, and a
    scanner over them runs every cycle to its end on a walk whose calls
    all carry an info, reporting the first error of the walk. *)
Theorem compiled_scanner_never_faults Compile range pats exps addr last vs :
  Watch_patexp Compile pats = Done exps ->
  statted vs = true ->
  length exps = length pats
  /\ exists s' ns,
       scanCycle range (mkPathScanner addr exps last) vs
       = Done (s', ns, walkErr vs).
Proof.
  intros Hc Hs. apply compileLoop_nil_Done in Hc as [Hlen Hc].
  split; [done|]. by apply scanCycle_total.
Qed.

Lemma compiled_scanner_never_faults_witness :
  Watch_patexp compileLog [logPattern] = Done [mkRegexp (Some endsInLog)]
  /\ statted logWalk = true
  /\ length [mkRegexp (Some endsInLog)] = length [logPattern]
  /\ exists s' ns,
       scanCycle map_to_list
         (mkPathScanner "root" [mkRegexp (Some endsInLog)] None) logWalk
       = Done (s', ns, walkErr logWalk).
Proof.
  split; [reflexivity|]. split; [reflexivity|].
  apply (compiled_scanner_never_faults compileLog map_to_list [logPattern]);
    reflexivity.
Defined.

(** X8. [New] stores twice as many patterns as it was given: the first
    half are zero values, the second half is what the earlier revision
    stores. *)
Theorem New_doubles_the_pattern_slice Compile pats exps :
  New_patexp Compile pats = Done exps ->
  length exps = (2 * length pats)%nat
  /\ take (length pats) exps = replicate (length pats) zeroRegexp
  /\ Watch_patexp Compile pats = Done (drop (length pats) exps).
Proof.
  rewrite New_patexp_Watch_patexp. unfold Watch_patexp.
  destruct (compileLoop Compile [] pats) as [rest|] eqn:E; [|discriminate].
  simpl. intros [= <-]. apply compileLoop_nil_Done in E as [Hlen _].
  split; [rewrite length_app, length_replicate; lia|].
  split.
  - rewrite take_app_length'; [done | by rewrite length_replicate].
  - by rewrite drop_app_length' by (by rewrite length_replicate).
Qed.

Lemma New_doubles_the_pattern_slice_witness :
  New_patexp compileLog [logPattern; logPattern]
  = Done [zeroRegexp; zeroRegexp;
          mkRegexp (Some endsInLog); mkRegexp (Some endsInLog)]
  /\ length [zeroRegexp; zeroRegexp;
             mkRegexp (Some endsInLog); mkRegexp (Some endsInLog)]
     = (2 * length [logPattern; logPattern])%nat
  /\ take (length [logPattern; logPattern])
          [zeroRegexp; zeroRegexp;
           mkRegexp (Some endsInLog); mkRegexp (Some endsInLog)]
     = replicate (length [logPattern; logPattern]) zeroRegexp
  /\ Watch_patexp compileLog [logPattern; logPattern]
     = Done (drop (length [logPattern; logPattern])
                  [zeroRegexp; zeroRegexp;
                   mkRegexp (Some endsInLog); mkRegexp (Some endsInLog)]).
Proof.
  split; [reflexivity|].
  apply (New_doubles_the_pattern_slice compileLog [logPattern; logPattern]).
  reflexivity.
Defined.

(** X9. [New] fails in one way only, by [Logger.Fatalln], and exactly
    when a pattern does not compile, or the watcher argument is a name
    other than "path" and "file", or it is neither a name nor a Watcher. *)
Theorem New_fails_fast Compile addr pats w flt :
  New Compile addr pats w = Abort flt <->
  flt = FatalExit
  /\ ((exists pat e, pat ∈ pats /\ Compile pat = inr e)
      \/ w = byOther
      \/ exists name, w = byName name /\ name <> "path"%string
                      /\ name <> "file"%string).
Proof.
  unfold New, New_patexp.
  destruct (compileLoop Compile (replicate (length pats) zeroRegexp) pats)
    as [exps|flt'] eqn:E; simpl.
  - assert (Hok : ~ exists pat e, pat ∈ pats /\ Compile pat = inr e).
    { intros Hbad.
      assert (compileLoop Compile (replicate (length pats) zeroRegexp) pats
              = Abort FatalExit) as Habs by (by apply compileLoop_Abort).
      congruence. }
    destruct w as [name| |].
    + destruct (String.eqb_spec name "path") as [->|Hp];
        [|destruct (String.eqb_spec name "file") as [->|Hf]].
      * split; [discriminate|].
        intros (_ & [?|[?|(n & Hn & ? & ?)]]);
          [by destruct Hok | discriminate | injection Hn as <-; done].
      * split; [discriminate|].
        intros (_ & [?|[?|(n & Hn & ? & ?)]]);
          [by destruct Hok | discriminate | injection Hn as <-; done].
      * split; [|by intros [-> _]]. intros [= <-]. split; [done|].
        right. right. by exists name.
    + split; [discriminate|].
      intros (_ & [?|[?|(n & ? & _)]]);
        [by destruct Hok | discriminate | discriminate].
    + split; [|by intros [-> _]]. intros [= <-]. auto.
  - apply compileLoop_Abort in E as [-> Hbad].
    split; [intros [= <-]; auto | by intros [-> _]].
Qed.

(** X10. Whatever non-empty list of patterns [New] was given, no cycle of
    the path scanner it builds gets past the first file of the walk: the
    match loop meets a zero value before any compiled pattern, and the
    cycle ends in a fault. *)
Theorem New_scanner_faults_at_first_file Compile range addr pats s vs1 v i vs2 :
  New Compile addr pats (byName "path") = Done (usePathScanner s) ->
  pats <> [] ->
  walkErr vs1 = None ->
  info v = Some i ->
  IsDir i = false ->
  exists flt, scanCycle range s (vs1 ++ v :: vs2) = Abort flt.
Proof.
  intros HNew Hne Hok Hi Hd. unfold New in HNew.
  destruct (New_patexp Compile pats) as [exps|] eqn:E; [|discriminate].
  simpl in HNew. injection HNew as <-.
  apply New_patexp_zero_prefix in E as [rest ->].
  destruct pats as [|pat pats]; [done|]. simpl.
  rewrite scanCycle_Walk, Walk_app.
  destruct (Walk _ vs1 newCycle) as [[c1 e1]|flt] eqn:EW; simpl.
  - apply Walk_Done in EW as [_ ->]. rewrite Hok. simpl.
    unfold walkFn. rewrite Hi, Hd. simpl. eauto.
  - eauto.
Qed.

Lemma New_scanner_faults_at_first_file_witness :
  New compileLog "root" [logPattern] (byName "path")
  = Done (usePathScanner
            (mkPathScanner "root" [zeroRegexp; mkRegexp (Some endsInLog)] None))
  /\ [logPattern] <> []
  /\ exists flt,
       scanCycle map_to_list
         (mkPathScanner "root" [zeroRegexp; mkRegexp (Some endsInLog)] None)
         ([seen "root" directory] ++ seen "root/b.log" (regular 1 20) :: [])
       = Abort flt.
Proof.
  split; [reflexivity|]. split; [discriminate|].
  apply (New_scanner_faults_at_first_file compileLog map_to_list "root"
           [logPattern] _ [seen "root" directory]
           (seen "root/b.log" (regular 1 20)) (regular 1 20) []);
    (reflexivity || discriminate).
Defined.

(** * Properties of the printing of events and notices *)

Lemma eventName_entries :
  map_to_list eventName
  = [(8, "notice.FileRename"%string); (4, "notice.FileRemove"%string);
     (2, "notice.FileUpdate"%string); (1, "notice.FileCreate"%string)].
Proof. vm_compute. reflexivity. Qed.

Lemma Event_names_fair range e :
  fairNames range -> Event_names range e ≡ₚ Event_names map_to_list e.
Proof.
  intros Hfair. unfold Event_names. simpl. rewrite !app_nil_r.
  apply Permutation_flat_map, Hfair.
Qed.

Lemma Event_names_sorted e :
  Event_names map_to_list e
  = (if Z.land e 8 =? 8 then ["notice.FileRename"%string] else [])
    ++ (if Z.land e 4 =? 4 then ["notice.FileRemove"%string] else [])
    ++ (if Z.land e 2 =? 2 then ["notice.FileUpdate"%string] else [])
    ++ (if Z.land e 1 =? 1 then ["notice.FileCreate"%string] else []).
Proof.
  unfold Event_names. simpl. rewrite eventName_entries. simpl.
  by rewrite !app_nil_r.
Qed.

Lemma eventName_lookup ev name :
  eventName !! ev = Some name <->
  (ev, name) ∈ [(8, "notice.FileRename"%string); (4, "notice.FileRemove"%string);
                (2, "notice.FileUpdate"%string); (1, "notice.FileCreate"%string)].
Proof. rewrite <- eventName_entries. symmetry. apply elem_of_map_to_list. Qed.

(** The text of a kind with one named flag is the name of that flag. *)
Lemma Event_String_single range ev name :
  fairNames range -> eventName !! ev = Some name -> Event_String range ev = name.
Proof.
  intros Hfair Hev. pose proof (Event_names_fair range ev Hfair) as Hperm.
  apply eventName_lookup in Hev. unfold Event_String.
  rewrite Event_names_sorted in Hperm.
  rewrite !elem_of_cons, elem_of_nil in Hev.
  destruct Hev as [Hev|[Hev|[Hev|[Hev|[]]]]]; simplify_eq;
    simpl in Hperm; apply Permutation_singleton_r in Hperm;
    rewrite Hperm; reflexivity.
Qed.

Lemma cycle_kinds range s vs s' ns err :
  scanCycle range s vs = Done (s', ns, err) ->
  Forall (fun n => event n = FileCreate \/ event n = FileUpdate
                   \/ event n = FileRemove) ns.
Proof.
  intros H. apply scanCycle_Done in H. cbv zeta in H.
  destruct H as (_ & _ & rem & -> & Hrem). apply Forall_app. split.
  - eapply Forall_impl; [apply forward_kinds|]. simpl. tauto.
  - destruct Hrem as [->|(last & _ & -> & _)]; [|done].
    destruct (lastCheck s) as [last|]; [|done].
    eapply Forall_impl; [apply removals_kinds|]. simpl. tauto.
Qed.

(** X11. [Event.String] lists the names of the flags a kind includes, each
    one once, whatever the order of the map: a name is listed exactly when
    [e&ev == ev] for its entry of [eventName]; a kind that includes no
    named flag, as the zero kind, prints as the empty text. *)
Theorem Event_String_lists_included_flags range e :
  fairNames range ->
  NoDup (Event_names range e)
  /\ (forall name, name ∈ Event_names range e <->
        exists ev, eventName !! ev = Some name /\ Z.land e ev = ev)
  /\ ((forall ev, is_Some (eventName !! ev) -> Z.land e ev <> ev) ->
      Event_String range e = ""%string).
Proof.
  intros Hfair. pose proof (Event_names_fair range e Hfair) as Hperm.
  assert (Hmem : forall name, name ∈ Event_names map_to_list e <->
            exists ev, eventName !! ev = Some name /\ Z.land e ev = ev).
  { intros name. unfold Event_names. simpl. rewrite app_nil_r.
    rewrite list_elem_of_In, in_flat_map. split.
    - intros ([ev str] & Hin & Hname). apply list_elem_of_In in Hin, Hname.
      apply elem_of_map_to_list in Hin.
      destruct (Z.eqb_spec (Z.land e ev) ev);
        [|by apply elem_of_nil in Hname].
      apply list_elem_of_singleton in Hname. subst. by exists ev.
    - intros (ev & Hev & Hland). exists (ev, name). split.
      + by apply list_elem_of_In, elem_of_map_to_list.
      + apply list_elem_of_In. rewrite Hland, Z.eqb_refl. by left. }
  split; [|split].
  - rewrite Hperm, Event_names_sorted.
    destruct (Z.land e 8 =? 8), (Z.land e 4 =? 4), (Z.land e 2 =? 2),
      (Z.land e 1 =? 1); apply (bool_decide_unpack _); vm_compute; exact I.
  - intros name. rewrite Hperm. apply Hmem.
  - intros Hnone. unfold Event_String.
    assert (Event_names map_to_list e = []) as Hnil.
    { destruct (Event_names map_to_list e) as [|name l] eqn:El; [done|].
      destruct (proj1 (Hmem name)) as (ev & Hev & Hland); [left|].
      destruct (Hnone ev); eauto. }
    rewrite Hnil in Hperm. apply Permutation_nil_r in Hperm. by rewrite Hperm.
Qed.

Lemma Event_String_lists_included_flags_witness :
  fairNames map_to_list
  /\ NoDup (Event_names map_to_list (Z.lor FileCreate FileRemove))
  /\ (forall name, name ∈ Event_names map_to_list (Z.lor FileCreate FileRemove) <->
        exists ev, eventName !! ev = Some name
                   /\ Z.land (Z.lor FileCreate FileRemove) ev = ev)
  /\ ((forall ev, is_Some (eventName !! ev) ->
         Z.land (Z.lor FileCreate FileRemove) ev <> ev) ->
      Event_String map_to_list (Z.lor FileCreate FileRemove) = ""%string).
Proof.
  assert (H : fairNames map_to_list) by (intros m; reflexivity).
  split; [exact H|].
  exact (Event_String_lists_included_flags map_to_list
           (Z.lor FileCreate FileRemove) H).
Defined.

(** X12. For a kind that includes two named flags the text is not
    determined by the kind: two iteration orders of [eventName], each
    going through every entry once, give different texts. *)
Theorem Event_String_depends_on_map_order e ev1 ev2 :
  ev1 <> ev2 ->
  is_Some (eventName !! ev1) -> is_Some (eventName !! ev2) ->
  Z.land e ev1 = ev1 -> Z.land e ev2 = ev2 ->
  exists r1 r2,
    fairNames r1 /\ fairNames r2 /\ Event_String r1 e <> Event_String r2 e.
Proof.
  intros Hne [n1 H1] [n2 H2] Hl1 Hl2.
  exists map_to_list, (fun m => reverse (map_to_list m)).
  split; [intros m; reflexivity|].
  split; [intros m; apply reverse_Permutation|].
  unfold Event_String, Event_names. simpl. rewrite !app_nil_r.
  rewrite eventName_entries.
  apply eventName_lookup in H1, H2.
  rewrite !elem_of_cons, elem_of_nil in H1, H2.
  destruct H1 as [H1|[H1|[H1|[H1|[]]]]];
  destruct H2 as [H2|[H2|[H2|[H2|[]]]]]; simplify_eq;
    vm_compute reverse; simpl; rewrite ?Hl1, ?Hl2; simpl;
    destruct (Z.land e 8 =? 8), (Z.land e 4 =? 4), (Z.land e 2 =? 2),
      (Z.land e 1 =? 1); vm_compute; discriminate.
Qed.

Lemma Event_String_depends_on_map_order_witness :
  FileCreate <> FileUpdate
  /\ exists r1 r2,
       fairNames r1 /\ fairNames r2
       /\ Event_String r1 (Z.lor FileCreate FileUpdate)
          <> Event_String r2 (Z.lor FileCreate FileUpdate).
Proof.
  split; [discriminate|].
  apply (Event_String_depends_on_map_order (Z.lor FileCreate FileUpdate)
           FileCreate FileUpdate).
  - discriminate.
  - vm_compute. eauto.
  - vm_compute. eauto.
  - reflexivity.
  - reflexivity.
Defined.

(** X13. Every notice a cycle sends prints the same under any order of
    the map: its kind is a single named flag, and the text is the path and
    the name of that flag between braces. *)
Theorem scanner_notices_print_one_flag range names s vs s' ns err n :
  fairNames names ->
  scanCycle range s vs = Done (s', ns, err) ->
  n ∈ ns ->
  exists name,
    eventName !! event n = Some name
    /\ Notice_String names n
       = String.append "{" (String.append (path n)
           (String.append " : " (String.append name "}"))).
Proof.
  intros Hfair H Hn. pose proof (cycle_kinds _ _ _ _ _ _ H) as Hk.
  rewrite Forall_forall in Hk. specialize (Hk n Hn).
  assert (exists name, eventName !! event n = Some name) as [name Hname].
  { destruct Hk as [Hk|[Hk|Hk]]; rewrite Hk; vm_compute; eauto. }
  exists name. split; [done|]. unfold Notice_String.
  by rewrite (Event_String_single names (event n) name).
Qed.

Lemma scanner_notices_print_one_flag_witness :
  fairNames map_to_list
  /\ scanCycle map_to_list pairScanner loneWalk
     = Done (mkPathScanner "root" [] (Some {["root/a" := regular 1 10]}),
             [mkNotice "root/b" FileRemove (regular 1 20)], None)
  /\ exists name,
       eventName !! FileRemove = Some name
       /\ Notice_String map_to_list (mkNotice "root/b" FileRemove (regular 1 20))
          = String.append "{" (String.append "root/b"
              (String.append " : " (String.append name "}"))).
Proof.
  assert (Hf : fairNames map_to_list) by (intros m; reflexivity).
  assert (H : scanCycle map_to_list pairScanner loneWalk
              = Done (mkPathScanner "root" [] (Some {["root/a" := regular 1 10]}),
                      [mkNotice "root/b" FileRemove (regular 1 20)], None))
    by (vm_compute; reflexivity).
  split; [exact Hf|]. split; [exact H|].
  refine (scanner_notices_print_one_flag map_to_list map_to_list pairScanner
            loneWalk _ _ _ (mkNotice "root/b" FileRemove (regular 1 20)) Hf H _).
  left.
Defined.

(** * Further properties of the dispatch loop *)

Lemma run_app range events tr1 tr2 : forall p,
  run range events (tr1 ++ tr2) p
  = match run range events tr1 p with
    | Next q => run range events tr2 q
    | o => o
    end.
Proof.
  induction tr1 as [|a tr1 IH]; simpl; intros p; [done|].
  destruct (step range events a p); auto.
Qed.

(** An invariant of the steps is an invariant of the schedules. *)
Lemma run_invariant range events (I : Pipeline -> Prop) :
  (forall a p q, I p -> step range events a p = Next q -> I q) ->
  forall tr p q, I p -> run range events tr p = Next q -> I q.
Proof.
  intros Hstep tr. induction tr as [|a tr IH]; simpl; intros p q Hp H.
  - by injection H as <-.
  - destruct (step range events a p) as [p1| |] eqn:E; try discriminate H.
    eapply IH; [|exact H]. eapply Hstep; eauto.
Qed.

Lemma step_bounded range events a p q :
  (length (noticeBuffer p) <= notice_buffer_length)%nat ->
  step range events a p = Next q ->
  (length (noticeBuffer q) <= notice_buffer_length)%nat.
Proof.
  intros Hp H. destruct a; step_cases H; simpl; try exact Hp.
  - rewrite length_app. simpl.
    match goal with E : Nat.ltb _ _ = true |- _ => apply Nat.ltb_lt in E end.
    lia.
  - simpl in Hp. lia.
  - rewrite length_drop. lia.
Qed.

Lemma step_scannerKinds range events a p q :
  scannerKinds p -> step range events a p = Next q -> scannerKinds q.
Proof.
  intros (Hb & Hn & Hw) H. unfold scannerKinds, pendingOf in *.
  destruct a; step_cases H; simpl;
    repeat match goal with
           | E : worker p = _ |- _ => rewrite E in *; clear E
           | E : noticeBuffer p = _ |- _ => rewrite E in *; clear E
           end;
    try (split; [|split]; done).
  - split; [done|]. split; [done|].
    match goal with E : scanCycle _ _ _ = Done _ |- _ =>
      apply cycle_kinds in E end. done.
  - apply Forall_cons in Hw as [Hn0 Hw].
    split; [apply Forall_app; split; [done | by apply Forall_singleton]|].
    done.
  - apply Forall_cons in Hb as [Hn0 Hb].
    split; [done|]. split; [|done]. apply Forall_app. split; [done|].
    apply Forall_forall. intros m Hm. by apply forward_only_n in Hm as ->.
  - split; [by apply Forall_drop | done].
Qed.

Lemma boot_scannerKinds s : scannerKinds (boot s).
Proof. unfold scannerKinds. simpl. auto. Qed.

Lemma step_closeTracked range events a p q :
  closeTracked p -> step range events a p = Next q -> closeTracked q.
Proof.
  intros (H1 & H2 & H3) H. unfold closeTracked in *.
  destruct a; step_cases H; simpl;
    repeat match goal with
           | E : monitor p = _ |- _ => rewrite E in *; clear E
           | E : worker p = _ |- _ => rewrite E in *; clear E
           | E : nccClosed p = _ |- _ => rewrite E in *; clear E
           | E : released p = _ |- _ => rewrite E in *; clear E
           | E : stopped p = _ |- _ => rewrite E in *; clear E
           end;
    try (split; [exact H1 | split; [exact H2 | exact H3]]);
    repeat split; intros; try done; try congruence;
    try (destruct H2 as (? & ? & ?); [done|]; congruence);
    try (by apply H3); try (by destruct H3).
Qed.

Lemma boot_closeTracked s : closeTracked (boot s).
Proof. unfold closeTracked. simpl. repeat split; intros; done. Qed.

Lemma step_closed range events a p q :
  nccClosed p = true /\ monitor p <> SendingNcc ->
  step range events a p = Next q ->
  (nccClosed q = true /\ monitor q <> SendingNcc) /\ begun q = begun p.
Proof.
  intros [Hc Hm] H. destruct a; step_cases H; simpl; try done; congruence.
Qed.

Lemma step_firstCycleQuiet range events a p q :
  serialized p -> firstCycleQuiet p ->
  step range events a p = Next q -> firstCycleQuiet q.
Proof.
  intros (Hs & _ & _) (H0 & H1) H. unfold firstCycleQuiet, pendingOf, busy in *.
  destruct a; step_cases H; simpl;
    repeat match goal with
           | E : worker p = _ |- _ => rewrite E in *; clear E
           | E : noticeBuffer p = _ |- _ => rewrite E in *; clear E
           end;
    try (split; [exact H0 | exact H1]).
  1: { split; [intros; lia|]. intros Hb. destruct H0 as [Hnil _]; [lia|].
       destruct H1 as (Hn & Hbuf & _); [lia|]. split; [done|]. split; [done|].
       match goal with E : scanCycle _ _ _ = Done _ |- _ =>
         apply scanCycle_Done in E; cbv zeta in E;
         destruct E as (_ & _ & rem & -> & Hrem) end.
       rewrite Hnil in *. rewrite forward_first_scan. simpl.
       destruct Hrem as [->|(last & Hl & _)]; [done | discriminate Hl]. }
  all: split; intros Hb;
    [ first [lia | by destruct H0]
    | destruct H1 as (Hn & Hbuf & Hp); [lia|];
      first [discriminate | by rewrite ?Hn, ?Hbuf] ].
Qed.

(** X14. The notice buffer never holds more than [notice_buffer_length]
    notices: when it is full, the worker's send does not go through until
    the loop has taken a notice. *)
Theorem notice_buffer_is_bounded range events s tr p :
  run range events tr (boot s) = Next p ->
  (length (noticeBuffer p) <= notice_buffer_length)%nat
  /\ (length (noticeBuffer p) = notice_buffer_length ->
      step range events Emit p = Blocked).
Proof.
  intros Hrun. split.
  - apply (run_invariant range events
             (fun q => (length (noticeBuffer q) <= notice_buffer_length)%nat)
             (step_bounded range events) tr (boot s) p); [simpl; lia | done].
  - intros Hfull. unfold step. destruct (worker p) as [|[|n rest] nx e| |]; try done.
    rewrite Hfull. reflexivity.
Qed.

Lemma notice_buffer_is_bounded_witness :
  exists p,
    run map_to_list [FileCreate] [TimerFires; Handoff newcomerWalk; Emit]
        (boot emptyScanner) = Next p
    /\ (length (noticeBuffer p) <= notice_buffer_length)%nat
    /\ (length (noticeBuffer p) = notice_buffer_length ->
        step map_to_list [FileCreate] Emit p = Blocked).
Proof.
  eexists. split; [vm_compute; reflexivity|].
  apply (notice_buffer_is_bounded map_to_list [FileCreate] emptyScanner
           [TimerFires; Handoff newcomerWalk; Emit]).
  vm_compute. reflexivity.
Defined.

(** X15. With the path scanner as the Watcher, every notice sent on
    [m.notices] is a Create, an Update or a Remove: a Rename is never
    delivered, whatever kinds were passed to [Start]. *)
Theorem only_scanner_kinds_are_delivered range events s tr p m :
  run range events tr (boot s) = Next p ->
  m ∈ notices p ->
  event m = FileCreate \/ event m = FileUpdate \/ event m = FileRemove.
Proof.
  intros Hrun Hm.
  destruct (run_invariant range events scannerKinds
              (step_scannerKinds range events) tr (boot s) p
              (boot_scannerKinds s) Hrun) as (_ & Hn & _).
  rewrite Forall_forall in Hn. by apply Hn.
Qed.

Lemma only_scanner_kinds_are_delivered_witness :
  exists p,
    run map_to_list [FileCreate; FileRename]
        [TimerFires; Handoff newcomerWalk; Emit; Drain]
        (boot emptyScanner) = Next p
    /\ notices p = [mkNotice "root/a" FileCreate (regular 1 10)]
    /\ (event (mkNotice "root/a" FileCreate (regular 1 10)) = FileCreate
        \/ event (mkNotice "root/a" FileCreate (regular 1 10)) = FileUpdate
        \/ event (mkNotice "root/a" FileCreate (regular 1 10)) = FileRemove).
Proof.
  eexists. split; [vm_compute; reflexivity|]. split; [reflexivity|].
  eapply (only_scanner_kinds_are_delivered map_to_list [FileCreate; FileRename]
           emptyScanner [TimerFires; Handoff newcomerWalk; Emit; Drain] _
           (mkNotice "root/a" FileCreate (regular 1 10))).
  - vm_compute. reflexivity.
  - left.
Defined.

(** X17. After the loop has taken a stop request, no new cycle begins on
    any schedule; a tick, or a second stop request, that the loop takes at
    its select before it has seen the worker exit ends the process on the
    closed [ncc]. *)
Theorem no_cycle_begins_after_stop_request range events s tr p :
  run range events tr (boot s) = Next p ->
  nccClosed p = true ->
  (forall tr' q, run range events tr' p = Next q ->
     begun q = begun p /\ nccClosed q = true)
  /\ (monitor p = AtSelect -> is_Some (timeTick p) ->
      step range events TimerFires p = Crash ClosedChannel)
  /\ (monitor p = AtSelect ->
      step range events StopCalled p = Crash ClosedChannel).
Proof.
  intros Hrun Hc.
  destruct (run_invariant range events closeTracked
              (step_closeTracked range events) tr (boot s) p
              (boot_closeTracked s) Hrun) as (_ & _ & Hm).
  split; [|split].
  - intros tr' q Hrun'.
    set (I := fun x : Pipeline =>
                (nccClosed x = true /\ monitor x <> SendingNcc)
                /\ begun x = begun p).
    assert (Hstep : forall a x y, I x -> step range events a x = Next y -> I y).
    { intros a x y (Hx1 & Hx2) Hs.
      destruct (step_closed _ _ _ _ _ Hx1 Hs) as (? & ?).
      split; [done | congruence]. }
    assert (Hp : I p) by (split; [split; [done | by apply Hm] | done]).
    destruct (run_invariant range events I Hstep tr' p q Hp Hrun')
      as ((? & _) & ?).
    done.
  - intros Hsel [t Ht]. unfold step. by rewrite Hsel, Ht, Hc.
  - intros Hsel. unfold step. by rewrite Hsel, Hc.
Qed.

Lemma no_cycle_begins_after_stop_request_witness :
  exists p,
    run map_to_list [FileCreate] [StopCalled] (boot emptyScanner) = Next p
    /\ nccClosed p = true
    /\ (forall tr' q, run map_to_list [FileCreate] tr' p = Next q ->
          begun q = begun p /\ nccClosed q = true)
    /\ (monitor p = AtSelect -> is_Some (timeTick p) ->
        step map_to_list [FileCreate] TimerFires p = Crash ClosedChannel)
    /\ (monitor p = AtSelect ->
        step map_to_list [FileCreate] StopCalled p = Crash ClosedChannel).
Proof.
  eexists. split; [reflexivity|]. split; [reflexivity|].
  apply (no_cycle_begins_after_stop_request map_to_list [FileCreate]
           emptyScanner [StopCalled]); reflexivity.
Defined.

(** X18. When the loop sees [errors] closed, [returning] is not nil: the
    worker exits only after [ncc] was closed, in the branch that set
    [returning]. So the send of nil on [returning] goes through, and the
    buffer is closed. *)
Theorem shutdown_branch_is_never_stuck range events s tr p :
  run range events tr (boot s) = Next p ->
  monitor p = AtSelect ->
  worker p = Exited ->
  exists q, step range events Shutdown p = Next q
            /\ released q = Some None /\ bufferClosed q = true
            /\ monitor q = Returned.
Proof.
  intros Hrun Hsel Hw.
  destruct (run_invariant range events closeTracked
              (step_closeTracked range events) tr (boot s) p
              (boot_closeTracked s) Hrun) as (Hret & Hopen & _).
  assert (nccClosed p = true) as Hc.
  { destruct (nccClosed p); [done|]. by destruct Hopen as (_ & _ & []). }
  unfold step. rewrite Hsel, Hw, Hret, Hc. eexists. split; [done|]. done.
Qed.

Lemma shutdown_branch_is_never_stuck_witness :
  exists p,
    run map_to_list [FileCreate] [StopCalled; WorkerExits] (boot emptyScanner)
    = Next p
    /\ monitor p = AtSelect /\ worker p = Exited
    /\ exists q, step map_to_list [FileCreate] Shutdown p = Next q
                 /\ released q = Some None /\ bufferClosed q = true
                 /\ monitor q = Returned.
Proof.
  eexists. split; [reflexivity|]. split; [reflexivity|]. split; [reflexivity|].
  apply (shutdown_branch_is_never_stuck map_to_list [FileCreate] emptyScanner
           [StopCalled; WorkerExits]); reflexivity.
Defined.

(** X20. A Monitor whose scanner has not run yet delivers nothing, and
    leaves nothing in the buffer, until a second cycle has begun. *)
Theorem first_cycle_delivers_nothing range events s tr p :
  lastCheck s = None ->
  run range events tr (boot s) = Next p ->
  (begun p <= 1)%nat ->
  notices p = [] /\ noticeBuffer p = [].
Proof.
  intros Hnil Hrun Hb.
  set (I := fun x : Pipeline => serialized x /\ firstCycleQuiet x).
  assert (Hstep : forall a x y, I x -> step range events a x = Next y -> I y).
  { intros a x y (Hx1 & Hx2) Hs. split;
      [by eapply step_serialized | by eapply step_firstCycleQuiet]. }
  assert (Hp : I (boot s)).
  { split; [apply boot_serialized|]. unfold firstCycleQuiet. simpl. auto. }
  destruct (run_invariant range events I Hstep tr (boot s) p Hp Hrun)
    as (_ & _ & H1).
  destruct (H1 Hb) as (? & ? & _). done.
Qed.

Lemma first_cycle_delivers_nothing_witness :
  exists p,
    lastCheck freshScanner = None
    /\ run map_to_list [FileCreate; FileUpdate; FileRemove]
           [TimerFires; Handoff pairWalk; Finish; Report; TimerFires]
           (boot freshScanner) = Next p
    /\ (begun p <= 1)%nat
    /\ notices p = [] /\ noticeBuffer p = [].
Proof.
  eexists. split; [reflexivity|]. split; [vm_compute; reflexivity|].
  split; [simpl; lia|].
  apply (first_cycle_delivers_nothing map_to_list
           [FileCreate; FileUpdate; FileRemove] freshScanner
           [TimerFires; Handoff pairWalk; Finish; Report; TimerFires]).
  - reflexivity.
  - vm_compute. reflexivity.
  - simpl. lia.
Defined.

Lemma forward_unlisted (events : list Event) n :
  Type_ n ∉ events -> forward events n = [].
Proof.
  intros Hn. destruct (forward events n) as [|m l] eqn:E; [done|].
  assert (Hm : m ∈ forward events n) by (rewrite E; left).
  pose proof (forward_only_n _ _ _ Hm) as ->.
  by apply forward_exact in Hm.
Qed.

Lemma drain_all range events : forall k p,
  stopping p -> length (noticeBuffer p) = k ->
  Forall (fun n => Type_ n ∉ events) (noticeBuffer p) ->
  exists q, run range events (replicate k Drain) p = Next q
            /\ stopping q /\ worker q = worker p /\ noticeBuffer q = []
            /\ notices q = notices p.
Proof.
  induction k as [|k IH]; intros p Hp Hlen Hq.
  - exists p. split; [done|]. split; [done|]. split; [done|].
    split; [by apply nil_length_inv | done].
  - destruct (noticeBuffer p) as [|n rest] eqn:Hbuf; [discriminate Hlen|].
    apply Forall_cons in Hq as [Hn Hrest].
    destruct Hp as (Hm & Hc & Hr & Hs).
    simpl. rewrite Hm, Hbuf. rewrite (forward_unlisted events n Hn), app_nil_r.
    match goal with |- context [run _ _ _ ?x] =>
      destruct (IH x) as (q & Hrun & ? & ? & ? & ?) end.
    + by repeat split.
    + simpl in *. lia.
    + done.
    + exists q. by rewrite Hrun.
Qed.

Lemma emit_all range events nx e : forall pending p,
  stopping p -> worker p = Scanning pending nx e -> noticeBuffer p = [] ->
  Forall (fun n => Type_ n ∉ events) pending ->
  exists q,
    run range events (concat (replicate (length pending) [Emit; Drain])) p = Next q
    /\ stopping q /\ worker q = Scanning [] nx e /\ noticeBuffer q = []
    /\ notices q = notices p.
Proof.
  induction pending as [|n pending IH]; intros p Hp Hw Hbuf Hq.
  - exists p. done.
  - apply Forall_cons in Hq as [Hn Hrest].
    destruct Hp as (Hm & Hc & Hr & Hs).
    simpl. rewrite Hw, Hbuf. simpl. rewrite Hm. simpl.
    rewrite (forward_unlisted events n Hn), app_nil_r.
    match goal with |- context [run _ _ _ ?x] =>
      destruct (IH x) as (q & Hrun & ? & ? & ? & ?) end.
    + by repeat split.
    + done.
    + done.
    + done.
    + exists q. by rewrite Hrun.
Qed.

Lemma settle_scanned range events p nx e :
  stopping p -> worker p = Scanning [] nx e ->
  exists q,
    run range events [Finish; Report; WorkerExits; Shutdown; StopReturns] p = Next q
    /\ notices q = notices p
    /\ stopped q = Some None /\ noticesClosed q = true
    /\ monitor q = Returned /\ worker q = Exited.
Proof.
  intros (Hm & Hc & Hr & Hs) Hw. destruct p. simpl in *. subst.
  eexists. split; [reflexivity|]. done.
Qed.

Lemma settle_reporting range events p e :
  stopping p -> worker p = Reporting e ->
  exists q,
    run range events [Report; WorkerExits; Shutdown; StopReturns] p = Next q
    /\ notices q = notices p
    /\ stopped q = Some None /\ noticesClosed q = true
    /\ monitor q = Returned /\ worker q = Exited.
Proof.
  intros (Hm & Hc & Hr & Hs) Hw. destruct p. simpl in *. subst.
  eexists. split; [reflexivity|]. done.
Qed.

Lemma settle_waiting range events p :
  stopping p -> worker p = AwaitRequest ->
  exists q,
    run range events [WorkerExits; Shutdown; StopReturns] p = Next q
    /\ notices q = notices p
    /\ stopped q = Some None /\ noticesClosed q = true
    /\ monitor q = Returned /\ worker q = Exited.
Proof.
  intros (Hm & Hc & Hr & Hs) Hw. destruct p. simpl in *. subst.
  eexists. split; [reflexivity|]. done.
Qed.

(** X19. [Stop] completes with nobody reading [m.notices] when no notice
    that waits, in the buffer or with the worker, has a kind passed to
    [Start] (so also when none waits): from every such state the loop
    reaches at its select with no stop request taken yet, there is a
    schedule, on which the timer does not fire, that sends nothing on
    [m.notices], lets the worker finish its cycle and exit, and ends with
    [Stop] returning nil and [m.notices] closed. *)
Theorem Stop_completes_without_a_reader range events s tr p :
  run range events tr (boot s) = Next p ->
  monitor p = AtSelect ->
  nccClosed p = false ->
  Forall (fun n => Type_ n ∉ events) (noticeBuffer p ++ pendingOf p) ->
  exists tr' q,
    run range events (StopCalled :: tr') p = Next q
    /\ notices q = notices p
    /\ stopped q = Some None /\ noticesClosed q = true
    /\ monitor q = Returned /\ worker q = Exited.
Proof.
  intros Hrun Hsel Hopen Hquiet.
  apply Forall_app in Hquiet as [Hbuf Hpend].
  destruct (run_invariant range events closeTracked
              (step_closeTracked range events) tr (boot s) p
              (boot_closeTracked s) Hrun) as (Hret & Hfresh & _).
  destruct (Hfresh Hopen) as (_ & Hstopped & Hlive).
  set (p1 := mkPipeline (timeTick p) true true AtSelect
               (worker p) (scanner p) (noticeBuffer p)
               (bufferClosed p) (notices p) (noticesClosed p)
               (released p) (stopped p) (begun p) (reported p)).
  assert (Hstep : step range events StopCalled p = Next p1)
    by (unfold step; by rewrite Hsel, Hopen).
  assert (Hp1 : stopping p1) by done.
  assert (Hgo : forall tr' q, run range events tr' p1 = Next q ->
                  run range events (StopCalled :: tr') p = Next q)
    by (intros tr' q Hq;
        change (run range events (StopCalled :: tr') p)
          with (match step range events StopCalled p with
                | Next p' => run range events tr' p'
                | o => o
                end); by rewrite Hstep).
  unfold pendingOf in Hpend.
  destruct (worker p) as [|pending nx e|e|] eqn:Hw; [| | |done].
  - destruct (settle_waiting range events p1 Hp1 eq_refl) as (q & Hq & Hend).
    eauto.
  - destruct (drain_all range events _ p1 Hp1 eq_refl Hbuf)
      as (p2 & H2 & Hp2 & Hw2 & Hb2 & Hn2).
    destruct (emit_all range events nx e pending p2 Hp2 Hw2 Hb2 Hpend)
      as (p3 & H3 & Hp3 & Hw3 & _ & Hn3).
    destruct (settle_scanned range events p3 nx e Hp3 Hw3)
      as (q & Hq & Hn4 & Hend).
    exists (replicate (length (noticeBuffer p1)) Drain
            ++ concat (replicate (length pending) [Emit; Drain])
            ++ [Finish; Report; WorkerExits; Shutdown; StopReturns]), q.
    split; [|split; [by rewrite Hn4, Hn3, Hn2 | done]]. apply Hgo.
    by rewrite run_app, H2, run_app, H3.
  - destruct (settle_reporting range events p1 e Hp1 eq_refl) as (q & Hq & Hend).
    eauto.
Qed.

Lemma Stop_completes_without_a_reader_witness :
  exists p,
    run map_to_list [FileUpdate] [TimerFires; Handoff newcomerWalk]
        (boot emptyScanner) = Next p
    /\ pendingOf p = [mkNotice "root/a" FileCreate (regular 1 10)]
    /\ monitor p = AtSelect /\ nccClosed p = false
    /\ Forall (fun n => Type_ n ∉ [FileUpdate]) (noticeBuffer p ++ pendingOf p)
    /\ exists tr' q,
         run map_to_list [FileUpdate] (StopCalled :: tr') p = Next q
         /\ notices q = notices p
         /\ stopped q = Some None /\ noticesClosed q = true
         /\ monitor q = Returned /\ worker q = Exited.
Proof.
  eexists. split; [vm_compute; reflexivity|]. split; [reflexivity|].
  split; [reflexivity|]. split; [reflexivity|].
  assert (Hq : Forall (fun n => Type_ n ∉ [FileUpdate])
                 [mkNotice "root/a" FileCreate (regular 1 10)])
    by (apply (bool_decide_unpack _); vm_compute; exact I).
  split; [exact Hq|].
  apply (Stop_completes_without_a_reader map_to_list [FileUpdate] emptyScanner
           [TimerFires; Handoff newcomerWalk]).
  - vm_compute. reflexivity.
  - reflexivity.
  - reflexivity.
  - exact Hq.
Defined.

Lemma same_walk_twice_is_silent_witness :
  fairRange map_to_list
  /\ NoDup (walkedFiles pairWalk)
  /\ scanCycle map_to_list freshScanner pairWalk = Done (pairScanner, [], None)
  /\ scanCycle map_to_list pairScanner pairWalk = Done (pairScanner, [], None)
  /\ ([] : list Notice) = [] /\ lastCheck pairScanner = lastCheck pairScanner.
Proof.
  assert (Hf : fairRange map_to_list) by (intros m; reflexivity).
  assert (Hn : NoDup (walkedFiles pairWalk))
    by (apply (bool_decide_unpack _); vm_compute; exact I).
  assert (H1 : scanCycle map_to_list freshScanner pairWalk
               = Done (pairScanner, [], None)) by (vm_compute; reflexivity).
  assert (H2 : scanCycle map_to_list pairScanner pairWalk
               = Done (pairScanner, [], None)) by (vm_compute; reflexivity).
  split; [exact Hf|]. split; [exact Hn|]. split; [exact H1|]. split; [exact H2|].
  exact (same_walk_twice_is_silent map_to_list freshScanner pairWalk
           _ _ _ _ _ _ Hf Hn H1 H2).
Defined.
